(** * The [Graph] class of [src/js/script.js]

    A shallow embedding of the demo graph class (adjacency [Map] from vertex
    identifier to neighbour array, vertex and edge insertion, breadth-first
    and depth-first traversal, and the two export projections), together
    with the properties its specification states about it. *)

From stdpp Require Import base option relations list strings sorting pretty.

(* The solvers of stdpp clear hypotheses that may already be gone. *)
#[local] Set Warnings "-clear-no-such-hyp".

(** ** JavaScript containers

    The identifiers are the values a caller uses as [Map] keys: strings or
    numbers in practice.  The development is generic in their type.  Key
    lookup in a [Map], [Set.prototype.has] and [Array.prototype.includes]
    all compare with SameValueZero, which on strings and integers is plain
    equality, hence the [EqDecision].  [toString] is the language's
    ToString conversion, used by template literals, by [join] and by the
    default comparison of [sort]; a string is the sequence of its code
    units, one character of [string] each. *)

(** A [Map] iterates in insertion order: it is modelled by the list of its
    entries, oldest first. *)
Abbreviation JsMap K V := (list (K * V)) (only parsing).

(** A [Set] also iterates in insertion order. *)
Abbreviation JsSet A := (list A) (only parsing).

Section JsContainers.
Context {K V : Type} `{EqDecision K}.

Fixpoint map_get (k : K) (m : JsMap K V) : option V :=
  match m with
  | [] => None
  | (k', v) :: m' => if decide (k' = k) then Some v else map_get k m'
  end.

Definition map_has (k : K) (m : JsMap K V) : bool :=
  match map_get k m with Some _ => true | None => false end.

(** [set] overwrites the value of a present key in place and appends an
    entry for an absent one. *)
Fixpoint map_set (k : K) (v : V) (m : JsMap K V) : JsMap K V :=
  match m with
  | [] => [(k, v)]
  | (k', v') :: m' =>
      if decide (k' = k) then (k', v) :: m' else (k', v') :: map_set k v m'
  end.

Definition map_keys (m : JsMap K V) : list K := m.*1.

(** The entries a [Map] can hold: no key twice. *)
Definition map_wf (m : JsMap K V) : Prop := NoDup (map_keys m).
End JsContainers.

(** [add] of a value the set has does nothing. *)
Section JsSet.
Context {A : Type} `{EqDecision A}.

Definition set_has (x : A) (s : JsSet A) : bool := bool_decide (x ∈ s).

Definition set_add (x : A) (s : JsSet A) : JsSet A :=
  if set_has x s then s else s ++ [x].
End JsSet.

(** ** The class *)

Section GraphClass.
Context {ident : Type} `{EqDecision ident}.
Variable toString : ident → string.

(** [this.adjacencyList = new Map()] *)
Record Graph : Type := { adjacencyList : JsMap ident (list ident) }.

Definition new_Graph : Graph := {| adjacencyList := [] |}.

Definition addVertex (vertex : ident) (this : Graph) : Graph :=
  if negb (map_has vertex (adjacencyList this)) then
    {| adjacencyList := map_set vertex [] (adjacencyList this) |}
  else this.

(** [this.adjacencyList.get(k).push(x)].  The array is updated in place;
    every array of the map was created by its own [[]] in [addVertex], so
    no two keys share one and the update is seen under [k] only.  On a
    missing key [get] yields [undefined] and the call throws a TypeError:
    [None]. *)
Definition push_neighbor (k x : ident) (this : Graph) : option Graph :=
  match map_get k (adjacencyList this) with
  | Some a => Some {| adjacencyList := map_set k (a ++ [x]) (adjacencyList this) |}
  | None => None
  end.

Definition addEdge (vertex1 vertex2 : ident) (directed : bool) (this : Graph)
  : option Graph :=
  let this := addVertex vertex1 this in
  let this := addVertex vertex2 this in
  this ← push_neighbor vertex1 vertex2 this;
  if negb directed then push_neighbor vertex2 vertex1 this else Some this.

(** [this.adjacencyList.get(vertex) || []]: an array, even an empty one,
    is truthy. *)
Definition neighbors_of (vertex : ident) (this : Graph) : list ident :=
  match map_get vertex (adjacencyList this) with
  | Some a => a
  | None => []
  end.

(** *** Breadth-first traversal

    The loop's locals are the [visited] set, the [queue] array and the
    [result] array; the receiver is threaded through as well, so that what
    a traversal leaves of it can be stated. *)

(** [for (const neighbor of neighbors)
       if (!visited.has(neighbor)) queue.push(neighbor)] *)
Fixpoint bfs_enqueue (visited : JsSet ident) (neighbors queue : list ident)
  : list ident :=
  match neighbors with
  | [] => queue
  | neighbor :: neighbors =>
      bfs_enqueue visited neighbors
        (if negb (set_has neighbor visited) then queue ++ [neighbor] else queue)
  end.

(** [while (queue.length > 0) { ... }], one unit of fuel per test of the
    loop condition; [None] when the fuel is used up. *)
Fixpoint bfs_loop (fuel : nat) (this : Graph) (visited : JsSet ident)
    (queue result : list ident) : option (list ident * Graph) :=
  match fuel with
  | O => None
  | S fuel =>
      match queue with
      | [] => Some (result, this)
      | vertex :: queue =>
          if negb (set_has vertex visited) then
            let visited := set_add vertex visited in
            let result := result ++ [vertex] in
            let neighbors := neighbors_of vertex this in
            let queue := bfs_enqueue visited neighbors queue in
            bfs_loop fuel this visited queue result
          else bfs_loop fuel this visited queue result
      end
  end.

Definition bfs_within (fuel : nat) (start : ident) (this : Graph)
  : option (list ident * Graph) :=
  bfs_loop fuel this [] [start] [].

(** The number of array slots in the map: every [push] of the loop copies
    one of them, once. *)
Definition edge_count (this : Graph) : nat :=
  sum_list (length <$> (adjacencyList this).*2).

Definition bfs (start : ident) (this : Graph) : option (list ident * Graph) :=
  bfs_within (2 + edge_count this) start this.

(** *** Depth-first traversal

    [dfsHelper] is a closure over [visited], [result] and [this]: the
    three are its state. *)
Abbreviation dfs_state := (Graph * JsSet ident * list ident)%type (only parsing).

(** The [for ... of] of [dfsHelper], over the recursive call [helper]. *)
Fixpoint dfs_for_of (helper : ident → dfs_state → option dfs_state)
    (neighbors : list ident) (st : dfs_state) : option dfs_state :=
  match neighbors with
  | [] => Some st
  | neighbor :: neighbors =>
      if negb (set_has neighbor st.1.2) then
        st ← helper neighbor st; dfs_for_of helper neighbors st
      else dfs_for_of helper neighbors st
  end.

(** One unit of fuel per nested call. *)
Fixpoint dfsHelper (fuel : nat) (vertex : ident) (st : dfs_state)
  : option dfs_state :=
  match fuel with
  | O => None
  | S fuel =>
      let '(this, visited, result) := st in
      let visited := set_add vertex visited in
      let result := result ++ [vertex] in
      let neighbors := neighbors_of vertex this in
      dfs_for_of (dfsHelper fuel) neighbors (this, visited, result)
  end.

Definition dfs_within (fuel : nat) (start : ident) (this : Graph)
  : option (list ident * Graph) :=
  '(this, _, result) ← dfsHelper fuel start (this, [], []);
  Some (result, this).

Definition dfs (start : ident) (this : Graph) : option (list ident * Graph) :=
  dfs_within (1 + edge_count this) start this.

(** *** Adjacency-list text *)

(** [Array.prototype.join] on an array of identifiers. *)
Fixpoint join (sep : string) (l : list ident) : string :=
  match l with
  | [] => ""
  | [x] => toString x
  | x :: l => toString x +:+ sep +:+ join sep l
  end.

Definition newline : string := String (Ascii.ascii_of_nat 10) "".

(** [for (const [vertex, neighbors] of this.adjacencyList)
       representation += `${vertex}: [${neighbors.join(', ')}]\n`] *)
Fixpoint getAdjacencyList_loop (entries : JsMap ident (list ident))
    (representation : string) : string :=
  match entries with
  | [] => representation
  | (vertex, neighbors) :: entries =>
      getAdjacencyList_loop entries
        (representation +:+
           (toString vertex +:+ ": [" +:+ join ", " neighbors +:+ "]" +:+ newline))
  end.

Definition getAdjacencyList (this : Graph) : string * Graph :=
  (getAdjacencyList_loop (adjacencyList this) "", this).

(** *** Adjacency matrix *)

(** The comparison [sort()] uses when it is given none: the operands'
    string conversions, compared code unit by code unit. *)
Definition default_le (x y : ident) : Prop :=
  String.le (toString x) (toString y).

Global Instance default_le_dec : RelDecision default_le.
Proof. intros x y. unfold default_le. apply _. Defined.

(** [Array.prototype.sort] is stable: an element goes in front of the
    first one that is not smaller, and elements that compare equal keep
    their order. *)
Fixpoint sort_insert (x : ident) (l : list ident) : list ident :=
  match l with
  | [] => [x]
  | y :: l' =>
      if decide (default_le x y) then x :: l else y :: sort_insert x l'
  end.

Fixpoint array_sort (l : list ident) : list ident :=
  match l with
  | [] => []
  | x :: l => sort_insert x (array_sort l)
  end.

(** [for (let i = first; i < first + count; i++) body], where the body
    may throw. *)
Fixpoint for_range {St : Type} (first count : nat)
    (body : nat → St → option St) (s : St) : option St :=
  match count with
  | O => Some s
  | S count => s ← body first s; for_range (S first) count body s
  end.

(** [Array.prototype.includes] *)
Definition includes (x : ident) (a : list ident) : bool := bool_decide (x ∈ a).

(** The body of the inner loop.  [None] is the TypeError of a member
    access on [undefined]. *)
Definition matrix_cell (this : Graph) (vertices : list ident) (i j : nat)
    (matrix : list (list nat)) : option (list (list nat)) :=
  vertex1 ← vertices !! i;
  vertex2 ← vertices !! j;
  a ← map_get vertex1 (adjacencyList this);
  if includes vertex2 a then
    row ← matrix !! i;
    Some (<[i := <[j := 1]> row]> matrix)
  else Some matrix.

Definition getAdjacencyMatrix (this : Graph)
  : option ((list (list nat) * list ident) * Graph) :=
  let vertices := array_sort (map_keys (adjacencyList this)) in
  let size := length vertices in
  let matrix := replicate size (replicate size 0) in
  matrix ← for_range 0 size
              (λ i, for_range 0 size (matrix_cell this vertices i)) matrix;
  Some ((matrix, vertices), this).

(** ** Notions the properties are stated with *)

(** [v] is in the neighbour sequence a traversal reads for [u]. *)
Definition edge (this : Graph) (u v : ident) : Prop :=
  v ∈ neighbors_of u this.

Definition reachable (this : Graph) (start v : ident) : Prop :=
  rtc (edge this) start v.

(** [d] is the edge-distance of [v] from [start]: the length of a
    shortest path. *)
Definition distance (this : Graph) (start v : ident) (d : nat) : Prop :=
  nsteps (edge this) d start v ∧ ∀ k, nsteps (edge this) k start v → d ≤ k.

(** The values of [seen] and then those of [l] that are new, each at its
    first occurrence: what iterating [new Set([...seen, ...l])] gives. *)
Definition occurrences_from (seen l : list ident) : list ident :=
  foldl (λ s x, set_add x s) seen l.

(** The distinct values of a sequence, each at its first occurrence. *)
Definition first_occurrences (l : list ident) : list ident :=
  occurrences_from [] l.

(** What arrives at the queue when nothing is held back: the start vertex,
    then the neighbour sequence of each vertex of [order], in turn. *)
Definition arrivals (this : Graph) (start : ident) (order : list ident)
  : list ident :=
  start :: (order ≫= λ u, neighbors_of u this).

(** Pre-order visit of [v] when the vertices of [seen] have been visited:
    [v] itself, then for each neighbour in adjacency order that has not
    been visited by then, the whole of its visit. *)
Inductive preorder (this : Graph) : list ident → ident → list ident → Prop :=
  | preorder_visit seen v out :
      preorder_each this (seen ++ [v]) (neighbors_of v this) out →
      preorder this seen v (v :: out)
with preorder_each (this : Graph)
  : list ident → list ident → list ident → Prop :=
  | preorder_done seen :
      preorder_each this seen [] []
  | preorder_skip seen n ns out :
      n ∈ seen →
      preorder_each this seen ns out →
      preorder_each this seen (n :: ns) out
  | preorder_descend seen n ns out1 out2 :
      n ∉ seen →
      preorder this seen n out1 →
      preorder_each this (seen ++ out1) ns out2 →
      preorder_each this seen (n :: ns) (out1 ++ out2).

(** Every neighbour the map holds, with repetitions. *)
Definition all_neighbors (this : Graph) : list ident :=
  mjoin (adjacencyList this).*2.

(** The array slots of the entries whose key has not been visited: the
    pushes the breadth-first loop may still make. *)
Definition unexplored (this : Graph) (visited : list ident) : nat :=
  sum_list_with (λ entry, if set_has entry.1 visited then 0 else length entry.2)
    (adjacencyList this).

(** The breadth-first loop seen with the depth at which each vertex was
    output ([done]) or entered the queue ([queued]): every depth is the
    length of a path from [start]; depths never decrease along the output
    and the queue, and the queue spans at most two of them; a neighbour of
    an output vertex is output or waits in the queue one level deeper; and
    no output vertex has a path shorter than its depth. *)
Record bfs_layers (this : Graph) (start : ident)
    (done queued : list (ident * nat)) : Prop := {
  layers_path : ∀ v d, (v, d) ∈ done ++ queued → nsteps (edge this) d start v;
  layers_sorted : StronglySorted le (done ++ queued).*2;
  layers_front : ∀ v d rest v' d',
    queued = (v, d) :: rest → (v', d') ∈ rest → d' ≤ S d;
  layers_next : ∀ u d w,
    (u, d) ∈ done → edge this u w → w ∈ done.*1 ∨ (w, S d) ∈ queued;
  layers_start : start ∈ done.*1 ∨ (start, 0) ∈ queued;
  layers_least : ∀ v d k, (v, d) ∈ done → nsteps (edge this) k start v → d ≤ k
}.

(** What holds each time the breadth-first loop tests its condition. *)
Definition bfs_inv (this : Graph) (start : ident)
    (visited queue result : list ident) : Prop :=
  visited = result ∧
  first_occurrences (arrivals this start result) =
    occurrences_from visited queue ∧
  ∃ done queued,
    done.*1 = result ∧ queued.*1 = queue ∧ bfs_layers this start done queued.

(** What a visit that started when [visited] had been visited, from one of
    [roots], has to say of the vertices [out] it added, all of them in
    [universe]: they are new and distinct, each is reached from a root, and
    none has a neighbour left unvisited. *)
Definition visit_post (this : Graph) (universe visited roots out : list ident)
  : Prop :=
  NoDup (visited ++ out) ∧
  out ⊆ universe ∧
  (∀ w, w ∈ out → ∃ n, n ∈ roots ∧ rtc (edge this) n w) ∧
  (∀ u w, u ∈ out → edge this u w → w ∈ visited ++ out).

(** What a call of [dfsHelper] with [fuel] does on an unvisited vertex. *)
Definition dfsHelper_ok (g : Graph) (universe : list ident) (fuel : nat) : Prop :=
  ∀ (v : ident) (visited result : list ident),
    v ∈ universe → v ∉ visited → NoDup visited → visited ⊆ universe →
    length universe ≤ length visited + fuel →
    ∃ out,
      dfsHelper fuel v (g, visited, result) =
        Some (g, visited ++ v :: out, result ++ v :: out) ∧
      preorder g visited v (v :: out) ∧
      visit_post g universe visited [v] (v :: out).

(** One line of the adjacency-list text: [<vertex>: [<n1>, <n2>, ...]]
    and the line end. *)
Definition text_line (entry : ident * list ident) : string :=
  toString entry.1 +:+ ": [" +:+
    String.concat ", " (toString <$> entry.2) +:+ "]" +:+ newline.

Definition text_of_lines (lines : list string) : string :=
  foldr String.append "" lines.

(** What the matrix is to hold for the pair [u], [v]. *)
Definition adjacent (this : Graph) (u v : ident) : nat :=
  if includes v (neighbors_of u this) then 1 else 0.

(** A square matrix of side [n]. *)
Definition square (n : nat) (matrix : list (list nat)) : Prop :=
  length matrix = n ∧ Forall (λ row, length row = n) matrix.

(** The cell of row [i] and column [j], when the matrix has one. *)
Definition cell (matrix : list (list nat)) (i j : nat) : option nat :=
  row ← matrix !! i; row !! j.

(** A graph a program can have: built from the empty one by the two
    insertion methods. *)
Inductive built : Graph → Prop :=
  | built_new : built new_Graph
  | built_addVertex v this : built this → built (addVertex v this)
  | built_addEdge a b directed this this' :
      built this → addEdge a b directed this = Some this' → built this'.

End GraphClass.

Arguments Graph : clear implicits.

(** ** The traversals, object by object

    An array is an object, and what a variable or a [Map] entry holds is a
    reference to it: [neighbors] in a traversal is the very array the map
    holds for the vertex.  To state what a traversal writes, the arrays
    (and the [visited] set, kept as the array of its members in insertion
    order) are put in a store, a reference being an index into it, and the
    receiver's map takes a key to the reference of its array. *)

Section ByReference.
Context {ident : Type} `{EqDecision ident}.

Record heap : Type := {
  heap_map : JsMap ident nat;
  heap_arrays : list (list ident)
}.

(** A new object. *)
Definition heap_new (a : list ident) (h : heap) : nat * heap :=
  (length (heap_arrays h),
   {| heap_map := heap_map h; heap_arrays := heap_arrays h ++ [a] |}).

Definition heap_get (r : nat) (h : heap) : list ident :=
  default [] (heap_arrays h !! r).

Definition heap_put (r : nat) (a : list ident) (h : heap) : heap :=
  {| heap_map := heap_map h; heap_arrays := <[r := a]> (heap_arrays h) |}.

(** [this.adjacencyList.get(vertex) || []]: the array of the map, or a new
    empty one. *)
Definition neighbors_ref (vertex : ident) (h : heap) : nat * heap :=
  match map_get vertex (heap_map h) with
  | Some r => (r, h)
  | None => heap_new [] h
  end.

(** [for (const neighbor of neighbors)
       if (!visited.has(neighbor)) queue.push(neighbor)]: the iterator
    reads the array anew at each step, at the index [i] it has reached.
    One unit of fuel per step. *)
Fixpoint bfs_for_of_ref (fuel : nat) (neighbors visited queue i : nat)
    (h : heap) : option heap :=
  match fuel with
  | O => None
  | S fuel =>
      match heap_get neighbors h !! i with
      | None => Some h
      | Some neighbor =>
          let h :=
            if negb (set_has neighbor (heap_get visited h)) then
              heap_put queue (heap_get queue h ++ [neighbor]) h
            else h in
          bfs_for_of_ref fuel neighbors visited queue (S i) h
      end
  end.

Fixpoint bfs_loop_ref (fuel : nat) (visited queue result : nat) (h : heap)
  : option (list ident * heap) :=
  match fuel with
  | O => None
  | S fuel =>
      match heap_get queue h with
      | [] => Some (heap_get result h, h)
      | vertex :: rest =>
          let h := heap_put queue rest h in
          if negb (set_has vertex (heap_get visited h)) then
            let h := heap_put visited (set_add vertex (heap_get visited h)) h in
            let h := heap_put result (heap_get result h ++ [vertex]) h in
            let '(neighbors, h) := neighbors_ref vertex h in
            h ← bfs_for_of_ref fuel neighbors visited queue 0 h;
            bfs_loop_ref fuel visited queue result h
          else bfs_loop_ref fuel visited queue result h
      end
  end.

Definition bfs_ref (fuel : nat) (start : ident) (h : heap)
  : option (list ident * heap) :=
  let '(visited, h) := heap_new [] h in
  let '(queue, h) := heap_new [start] h in
  let '(result, h) := heap_new [] h in
  bfs_loop_ref fuel visited queue result h.

Fixpoint dfs_for_of_ref (helper : ident → heap → option heap) (fuel : nat)
    (neighbors visited i : nat) (h : heap) : option heap :=
  match fuel with
  | O => None
  | S fuel =>
      match heap_get neighbors h !! i with
      | None => Some h
      | Some neighbor =>
          if negb (set_has neighbor (heap_get visited h)) then
            h ← helper neighbor h;
            dfs_for_of_ref helper fuel neighbors visited (S i) h
          else dfs_for_of_ref helper fuel neighbors visited (S i) h
      end
  end.

Fixpoint dfsHelper_ref (fuel : nat) (visited result : nat) (vertex : ident)
    (h : heap) : option heap :=
  match fuel with
  | O => None
  | S fuel =>
      let h := heap_put visited (set_add vertex (heap_get visited h)) h in
      let h := heap_put result (heap_get result h ++ [vertex]) h in
      let '(neighbors, h) := neighbors_ref vertex h in
      dfs_for_of_ref (dfsHelper_ref fuel visited result) fuel
        neighbors visited 0 h
  end.

Definition dfs_ref (fuel : nat) (start : ident) (h : heap)
  : option (list ident * heap) :=
  let '(visited, h) := heap_new [] h in
  let '(result, h) := heap_new [] h in
  h ← dfsHelper_ref fuel visited result start h;
  Some (heap_get result h, h).

(** The graph a store holds: every key with the content of its array. *)
Definition graph_of (h : heap) : Graph ident :=
  {| adjacencyList := prod_map id (λ r, heap_get r h) <$> heap_map h |}.

(** A store for a graph: the array of the [i]-th entry is object [i]. *)
Definition heap_of (g : Graph ident) : heap :=
  {| heap_map := imap (λ i entry, (entry.1, i)) (adjacencyList g);
     heap_arrays := (adjacencyList g).*2 |}.

(** No entry of the map dangles. *)
Definition heap_wf (h : heap) : Prop :=
  Forall (λ entry, entry.2 < length (heap_arrays h)) (heap_map h).

(** [h] has the map of [h0] and, at the references of [h0], its arrays. *)
Definition heap_extends (h0 h : heap) : Prop :=
  heap_map h = heap_map h0 ∧
  take (length (heap_arrays h0)) (heap_arrays h) = heap_arrays h0.

(** The store of a breadth-first run that started on [h0]: above the
    objects of [h0], left as they were, the three the run created, with
    the contents the loop on values has in its locals. *)
Definition bfs_store (h0 h : heap) (visited queue result : list ident) : Prop :=
  let n := length (heap_arrays h0) in
  heap_extends h0 h ∧ n + 3 ≤ length (heap_arrays h) ∧
  heap_get n h = visited ∧ heap_get (n + 1) h = queue ∧
  heap_get (n + 2) h = result.

(** The store of a depth-first run, likewise. *)
Definition dfs_store (h0 h : heap) (visited result : list ident) : Prop :=
  let n := length (heap_arrays h0) in
  heap_extends h0 h ∧ n + 2 ≤ length (heap_arrays h) ∧
  heap_get n h = visited ∧ heap_get (n + 1) h = result.

(** [helper], on objects, does what [dfsHelper] with [fuel] does on
    values. *)
Definition dfs_simulated (h0 : heap) (fuel : nat)
    (helper : ident → heap → option heap) : Prop :=
  ∀ v visited result h st',
    dfs_store h0 h visited result →
    dfsHelper fuel v (graph_of h0, visited, result) = Some st' →
    ∃ h', helper v h = Some h' ∧ dfs_store h0 h' st'.1.2 st'.2.

End ByReference.

Arguments heap : clear implicits.

(** ** More notions on graphs *)

Section GraphNotions.
Context {ident : Type} `{EqDecision ident}.

(** Every neighbour has an entry of its own. *)
Definition closed (g : Graph ident) : Prop :=
  ∀ u w, edge g u w → is_Some (map_get w (adjacencyList g)).

(** A graph built with undirected edges only. *)
Inductive built_undirected : Graph ident → Prop :=
  | undirected_new : built_undirected new_Graph
  | undirected_addVertex v g :
      built_undirected g → built_undirected (addVertex v g)
  | undirected_addEdge a b g g' :
      built_undirected g → addEdge a b false g = Some g' →
      built_undirected g'.

(** [g'] has, for every vertex, the neighbours of [g] up to repetitions
    after the first occurrence. *)
Definition same_first_neighbors (g g' : Graph ident) : Prop :=
  ∀ u, first_occurrences (neighbors_of u g') =
       first_occurrences (neighbors_of u g).

(** Every member of [r] but the first, [root], is a neighbour of a member
    that comes before it. *)
Definition discovered (g : Graph ident) (root : ident) (r : list ident) : Prop :=
  ∀ k x, r !! k = Some x →
    (k = 0 ∧ x = root) ∨ ∃ j u, j < k ∧ r !! j = Some u ∧ edge g u x.

End GraphNotions.

(** Induction on the two pre-order relations together. *)
Scheme preorder_both := Minimality for preorder Sort Prop
  with preorder_each_both := Minimality for preorder_each Sort Prop.
Combined Scheme preorder_mutual from preorder_both, preorder_each_both.

(** ** Line numbers of code blocks

    [addLineNumbers] reads the [textContent] of each block and writes its
    [innerHTML]; what it computes in between is on strings.  A block is
    modelled by its text, the outcome by the string the block is given. *)

(** [String.prototype.split] with a separator of one code unit: the pieces
    between the occurrences of the separator. *)
Fixpoint split (sep : Ascii.ascii) (s : string) : list string :=
  match s with
  | EmptyString => [EmptyString]
  | String c s =>
      if decide (c = sep) then EmptyString :: split sep s
      else match split sep s with
           | piece :: pieces => String c piece :: pieces
           | [] => [String c EmptyString]
           end
  end.

Definition line_feed : Ascii.ascii := Ascii.ascii_of_nat 10.

Definition double_quote : string := String (Ascii.ascii_of_nat 34) EmptyString.

(** [`<span class="line-number">${index + 1}</span>${line}`], the number in
    decimal. *)
Definition numbered_line (index : nat) (line : string) : string :=
  "<span class=" +:+ double_quote +:+ "line-number" +:+ double_quote +:+ ">"
    +:+ pretty (index + 1) +:+ "</span>" +:+ line.

(** [lines.map(...).join('\n')] of [textContent.split('\n')] *)
Definition numberedLines (textContent : string) : string :=
  String.concat newline (imap numbered_line (split line_feed textContent)).

(** [codeBlocks.forEach(block => ...)]: the [innerHTML] of each block. *)
Definition addLineNumbers (codeBlocks : list string) : list string :=
  numberedLines <$> codeBlocks.

(** How many times a code unit occurs in a string. *)
Fixpoint occurs (c : Ascii.ascii) (s : string) : nat :=
  match s with
  | EmptyString => 0
  | String c' s => (if decide (c' = c) then 1 else 0) + occurs c s
  end.

(** ** Insertion, on objects

    The two insertion methods on the store of [ByReference]: the array
    [addVertex] gives a new key is a new object, and [push] changes the
    object the map holds, whoever else holds it. *)

Section InsertionByReference.
Context {ident : Type} `{EqDecision ident}.

(** [new Map()], in a store with no object yet. *)
Definition heap_empty : heap ident := {| heap_map := []; heap_arrays := [] |}.

(** [if (!this.adjacencyList.has(vertex)) this.adjacencyList.set(vertex, [])] *)
Definition addVertex_ref (vertex : ident) (h : heap ident) : heap ident :=
  if negb (map_has vertex (heap_map h)) then
    let '(r, h) := heap_new [] h in
    {| heap_map := map_set vertex r (heap_map h);
       heap_arrays := heap_arrays h |}
  else h.

(** [this.adjacencyList.get(k).push(x)]; [None] is the TypeError of a
    call on [undefined]. *)
Definition push_ref (k x : ident) (h : heap ident) : option (heap ident) :=
  match map_get k (heap_map h) with
  | Some r => Some (heap_put r (heap_get r h ++ [x]) h)
  | None => None
  end.

Definition addEdge_ref (vertex1 vertex2 : ident) (directed : bool)
    (h : heap ident) : option (heap ident) :=
  let h := addVertex_ref vertex1 h in
  let h := addVertex_ref vertex2 h in
  h ← push_ref vertex1 vertex2 h;
  if negb directed then push_ref vertex2 vertex1 h else Some h.

(** No entry of the map dangles and no two entries hold the same array. *)
Definition heap_separate (h : heap ident) : Prop :=
  heap_wf h ∧ NoDup (heap_map h).*2.

End InsertionByReference.

(** ** A graph of string identifiers

    The path graph [a-b-c-d] with the separate vertex [e]; a string converts
    to itself. *)
Module Demo.
Definition path_graph : option (Graph string) :=
  g ← addEdge "a" "b" false new_Graph;
  g ← addEdge "b" "c" false g;
  g ← addEdge "c" "d" false g;
  Some (addVertex "e" g).

Definition path_graph_map : Graph string :=
  {| adjacencyList :=
       [("a", ["b"]); ("b", ["a"; "c"]); ("c", ["b"; "d"]); ("d", ["c"]);
        ("e", [])] |}.

(** A directed graph where a vertex is reached along two paths of
    different lengths, with a repeated edge and a neighbour that has no
    entry of its own. *)
Definition diamond : Graph string :=
  {| adjacencyList :=
       [("s", ["x"; "y"; "x"]); ("y", ["z"; "s"]); ("x", ["z"; "w"]);
        ("z", ["q"])] |}.

(** The same, as a store. *)
Definition diamond_heap : heap string :=
  {| heap_map := [("s", 0); ("y", 1); ("x", 2); ("z", 3)];
     heap_arrays := [["x"; "y"; "x"]; ["z"; "s"]; ["z"; "w"]; ["q"]] |}.

(** The diamond with each neighbour once. *)
Definition diamond_once : Graph string :=
  {| adjacencyList :=
       [("s", ["x"; "y"]); ("y", ["z"; "s"]); ("x", ["z"; "w"]);
        ("z", ["q"])] |}.

(** A store no method of the class produces: two keys with one array. *)
Definition shared_heap : heap string :=
  {| heap_map := [("a", 0); ("b", 0)]; heap_arrays := [[]] |}.
End Demo.

(** * Properties *)

Section JsContainerFacts.
Context {K V : Type} `{EqDecision K}.
Implicit Types (k : K) (v : V) (m : JsMap K V).

Lemma map_get_set k k' v m :
  map_get k' (map_set k v m) = if decide (k = k') then Some v else map_get k' m.
Proof.
  induction m as [|[k0 v0] m IH]; simpl.
  - repeat case_decide; congruence.
  - repeat (case_decide; simpl); congruence.
Qed.

Lemma map_has_set k k' v m :
  map_has k' (map_set k v m) = bool_decide (k = k') || map_has k' m.
Proof.
  unfold map_has. rewrite map_get_set.
  case_decide; [rewrite bool_decide_eq_true_2|rewrite bool_decide_eq_false_2]; done.
Qed.

Lemma map_keys_set_new k v m :
  map_get k m = None → map_keys (map_set k v m) = map_keys m ++ [k].
Proof.
  unfold map_keys. induction m as [|[k0 v0] m IH]; csimpl; [done|].
  destruct (decide (k0 = k)); [done|]. intros Hm. csimpl. by rewrite IH.
Qed.

Lemma map_keys_set_old k v m :
  is_Some (map_get k m) → map_keys (map_set k v m) = map_keys m.
Proof.
  unfold map_keys. induction m as [|[k0 v0] m IH]; simpl.
  - by intros [? ?].
  - destruct (decide (k0 = k)); [done|]. intros Hm. csimpl. by rewrite IH.
Qed.

Lemma map_get_keys k m : is_Some (map_get k m) ↔ k ∈ map_keys m.
Proof.
  unfold map_keys. induction m as [|[k0 v0] m IH]; simpl.
  - split; [by intros [? ?]|by intros ?%elem_of_nil].
  - rewrite elem_of_cons. destruct (decide (k0 = k)); subst.
    + split; eauto.
    + rewrite IH. intuition congruence.
Qed.

Lemma map_get_elem_of k v m : map_get k m = Some v → (k, v) ∈ m.
Proof.
  induction m as [|[k0 v0] m IH]; simpl; [done|].
  destruct (decide (k0 = k)); intros; simplify_eq; [left|right; auto].
Qed.
End JsContainerFacts.

Section GraphFacts.
Context {ident : Type} `{EqDecision ident}.
Implicit Types (this g : Graph ident) (v w a b start : ident).
Implicit Types (l visited queue result : list ident).

#[local] Abbreviation dfs_state :=
  (Graph ident * JsSet ident * list ident)%type (only parsing).

(** *** Insertion *)

Lemma addVertex_get v w g :
  map_get w (adjacencyList (addVertex v g)) =
    match map_get w (adjacencyList g) with
    | Some x => Some x
    | None => if decide (v = w) then Some [] else None
    end.
Proof.
  unfold addVertex, map_has.
  destruct (map_get v (adjacencyList g)) eqn:Hv; simpl.
  - destruct (map_get w (adjacencyList g)) eqn:Hw; [done|].
    case_decide; congruence.
  - rewrite map_get_set. case_decide; subst; [by rewrite Hv|].
    by destruct (map_get w (adjacencyList g)).
Qed.

Lemma addVertex_has v g : map_has v (adjacencyList (addVertex v g)) = true.
Proof.
  unfold map_has. rewrite addVertex_get.
  destruct (map_get _ _); [done|]. by rewrite decide_True.
Qed.

Lemma addVertex_present v g :
  map_has v (adjacencyList g) = true → addVertex v g = g.
Proof. unfold addVertex. by intros ->. Qed.

Lemma push_neighbor_get (k x : ident) g :
  is_Some (map_get k (adjacencyList g)) →
  ∃ g', push_neighbor k x g = Some g' ∧
    map_keys (adjacencyList g') = map_keys (adjacencyList g) ∧
    ∀ w, map_get w (adjacencyList g') =
      (λ arr, arr ++ if decide (k = w) then [x] else [])
        <$> map_get w (adjacencyList g).
Proof.
  intros [arr Hk]. unfold push_neighbor. rewrite Hk.
  eexists; split; [done|]. simpl.
  split; [apply map_keys_set_old; by rewrite Hk|]. intros w.
  rewrite map_get_set. case_decide; subst.
  - by rewrite Hk.
  - destruct (map_get w _); simpl; [|done]. by rewrite app_nil_r.
Qed.

(** C6. [addVertex] is idempotent: a second call with the same identifier
    returns the graph the first call left, entry for entry; and a call on
    an identifier that has an entry changes nothing at all. *)
Theorem addVertex_idempotent v g :
  addVertex v (addVertex v g) = addVertex v g ∧
  neighbors_of v (addVertex v (addVertex v g)) = neighbors_of v (addVertex v g) ∧
  (is_Some (map_get v (adjacencyList g)) → addVertex v g = g).
Proof.
  split_and!.
  - apply addVertex_present, addVertex_has.
  - by rewrite (addVertex_present v (addVertex v g)) by apply addVertex_has.
  - intros [x Hx]. apply addVertex_present. unfold map_has. by rewrite Hx.
Qed.

Lemma addVertex_neighbors v w g :
  neighbors_of w (addVertex v g) = neighbors_of w g.
Proof.
  unfold neighbors_of. rewrite addVertex_get.
  destruct (map_get w _); [done|]. by case_decide.
Qed.

Lemma addVertex_keys v g :
  map_keys (adjacencyList (addVertex v g)) =
    map_keys (adjacencyList g) ++
      (if map_has v (adjacencyList g) then [] else [v]).
Proof.
  unfold addVertex, map_has.
  destruct (map_get v (adjacencyList g)) eqn:Hv; simpl.
  - by rewrite app_nil_r.
  - by apply map_keys_set_new.
Qed.

Lemma addVertex_twice_entries a b g :
  let g0 := addVertex b (addVertex a g) in
  is_Some (map_get a (adjacencyList g0)) ∧ is_Some (map_get b (adjacencyList g0)).
Proof.
  intros g0. unfold g0. split.
  - rewrite !addVertex_get.
    destruct (map_get a (adjacencyList g)); [by eexists|].
    rewrite decide_True by done. by eexists.
  - rewrite addVertex_get.
    destruct (map_get b _); [by eexists|].
    rewrite decide_True by done. by eexists.
Qed.

Lemma addEdge_run a b (directed : bool) g :
  let g0 := addVertex b (addVertex a g) in
  ∃ g', addEdge a b directed g = Some g' ∧
    map_keys (adjacencyList g') = map_keys (adjacencyList g0) ∧
    ∀ v, map_get v (adjacencyList g') =
           (λ arr, arr ++ (if decide (a = v) then [b] else [])
                       ++ (if decide (b = v ∧ directed = false) then [a] else []))
             <$> map_get v (adjacencyList g0).
Proof.
  intros g0. destruct (addVertex_twice_entries a b g) as [Ha Hb].
  fold g0 in Ha, Hb. unfold addEdge. fold g0.
  destruct (push_neighbor_get a b g0 Ha) as (g1 & Hg1 & Hk1 & Hv1).
  rewrite Hg1. simpl. destruct directed; simpl.
  - eexists; split; [done|]. split; [done|]. intros v.
    rewrite Hv1. destruct (map_get v _); simpl; [|done].
    rewrite (decide_False (P := _ ∧ _)) by (by intros [_ ?]).
    by rewrite app_nil_r.
  - assert (is_Some (map_get b (adjacencyList g1))) as Hb1.
    { rewrite Hv1. destruct Hb as [? ->]. by eexists. }
    destruct (push_neighbor_get b a g1 Hb1) as (g2 & Hg2 & Hk2 & Hv2).
    rewrite Hg2. eexists; split; [done|]. split; [congruence|]. intros v.
    rewrite Hv2, Hv1. destruct (map_get v _); simpl; [|done].
    f_equal. rewrite <-app_assoc. do 2 f_equal.
    destruct (decide (b = v)); [by rewrite decide_True|].
    by rewrite decide_False by (by intros [? _]).
Qed.

(** C5. [addEdge(a, b, directed)] first gives [a] and [b] their entries,
    then returns (it never throws) the graph with the same keys in which
    [b] has been appended to the neighbours of [a] and, exactly when
    [directed] is false, [a] after that to the neighbours of [b]; every
    other sequence is the one it was.  Hence the edges afterwards are the
    old ones, [a -> b], and [b -> a] when undirected. *)
Theorem addEdge_appends a b (directed : bool) g :
  let g0 := addVertex b (addVertex a g) in
  is_Some (map_get a (adjacencyList g0)) ∧
  is_Some (map_get b (adjacencyList g0)) ∧
  ∃ g', addEdge a b directed g = Some g' ∧
    map_keys (adjacencyList g') = map_keys (adjacencyList g0) ∧
    (∀ v, map_get v (adjacencyList g') =
            (λ arr, arr ++ (if decide (a = v) then [b] else [])
                        ++ (if decide (b = v ∧ directed = false) then [a] else []))
              <$> map_get v (adjacencyList g0)) ∧
    (∀ v, neighbors_of v g' =
            neighbors_of v g ++ (if decide (a = v) then [b] else [])
                             ++ (if decide (b = v ∧ directed = false) then [a] else [])) ∧
    (∀ v w, edge g' v w ↔
              edge g v w ∨ (v = a ∧ w = b) ∨ (directed = false ∧ v = b ∧ w = a)).
Proof.
  intros g0. destruct (addVertex_twice_entries a b g) as [Ha Hb].
  fold g0 in Ha, Hb. split; [done|]. split; [done|].
  destruct (addEdge_run a b directed g) as (g' & Hrun & Hkeys & Hget).
  fold g0 in Hkeys, Hget.
  assert (∀ v, neighbors_of v g' =
            neighbors_of v g ++ (if decide (a = v) then [b] else [])
                             ++ (if decide (b = v ∧ directed = false) then [a] else []))
    as Hnb.
  { intros v. rewrite <-(addVertex_neighbors a v g).
    rewrite <-(addVertex_neighbors b v (addVertex a g)). fold g0. unfold neighbors_of. rewrite Hget.
    destruct (map_get v (adjacencyList g0)) eqn:Hv; simpl; [done|].
    rewrite decide_False by (intros ->; destruct Ha; congruence).
    rewrite decide_False by (intros [-> _]; destruct Hb; congruence). done. }
  exists g'. split_and!; try done.
  intros v w. unfold edge. rewrite Hnb, !elem_of_app.
  repeat case_decide; rewrite ?list_elem_of_singleton, ?elem_of_nil; naive_solver.
Qed.

(** Whatever is built with the two insertion methods holds no key twice. *)
Lemma built_wf g : built g → map_wf (adjacencyList g).
Proof.
  assert (∀ v g, map_wf (adjacencyList g) → map_wf (adjacencyList (addVertex v g)))
    as Hadd.
  { intros v g0 Hwf. unfold map_wf. rewrite addVertex_keys. unfold map_has.
    destruct (map_get v (adjacencyList g0)) eqn:Hv; [by rewrite app_nil_r|].
    apply NoDup_app. split_and!; [done| |apply NoDup_singleton].
    intros x Hx ->%list_elem_of_singleton.
    apply map_get_keys in Hx as [? ?]. congruence. }
  induction 1 as [|v g Hg IH|a b directed g g' Hg IH Hrun].
  - constructor.
  - by apply Hadd.
  - destruct (addEdge_run a b directed g) as (g1 & Hrun1 & Hkeys & _).
    assert (g1 = g') as -> by congruence.
    unfold map_wf. rewrite Hkeys. by apply Hadd, Hadd.
Qed.

(** *** Traversals: what they share *)

Lemma set_has_true (x : ident) (s : list ident) : set_has x s = true ↔ x ∈ s.
Proof. unfold set_has. apply bool_decide_eq_true. Qed.

Lemma set_has_false (x : ident) (s : list ident) : set_has x s = false ↔ x ∉ s.
Proof. unfold set_has. apply bool_decide_eq_false. Qed.

Lemma set_add_new (x : ident) (s : list ident) : x ∉ s → set_add x s = s ++ [x].
Proof. intros Hx. unfold set_add. by rewrite (proj2 (set_has_false x s)). Qed.

Lemma set_add_old (x : ident) (s : list ident) : x ∈ s → set_add x s = s.
Proof. intros Hx. unfold set_add. by rewrite (proj2 (set_has_true x s)). Qed.

Lemma edge_all_neighbors g u w : edge g u w → w ∈ all_neighbors g.
Proof.
  unfold edge, neighbors_of, all_neighbors.
  destruct (map_get u (adjacencyList g)) as [arr|] eqn:Hu; [|by intros ?%elem_of_nil].
  intros Hw. apply list_elem_of_join. exists arr. split; [done|].
  apply list_elem_of_fmap. exists (u, arr). split; [done|].
  by apply map_get_elem_of.
Qed.

Lemma length_all_neighbors g : length (all_neighbors g) = edge_count g.
Proof. unfold all_neighbors, edge_count. apply length_join. Qed.

Lemma neighbors_of_absent g v :
  map_get v (adjacencyList g) = None → neighbors_of v g = [].
Proof. unfold neighbors_of. by intros ->. Qed.

Lemma neighbors_of_length g v : length (neighbors_of v g) ≤ edge_count g.
Proof.
  unfold neighbors_of, edge_count.
  induction (adjacencyList g) as [|[k arr] m IH]; csimpl; [lia|].
  destruct (decide (k = v)); lia.
Qed.

(** *** Depth-first traversal *)

Lemma dfs_for_of_run g (universe : list ident) (fuel : nat) :
  (∀ u w, edge g u w → w ∈ universe) →
  dfsHelper_ok g universe fuel →
  ∀ ns visited result,
    ns ⊆ universe → NoDup visited → visited ⊆ universe →
    length universe ≤ length visited + fuel →
    ∃ out,
      dfs_for_of (dfsHelper fuel) ns (g, visited, result) =
        Some (g, visited ++ out, result ++ out) ∧
      preorder_each g visited ns out ∧
      visit_post g universe visited ns out ∧
      ns ⊆ visited ++ out.
Proof.
  intros Hclosed Hhelper ns.
  induction ns as [|n ns IH]; intros visited result Hns Hnd Hsub Hlen; simpl.
  - exists []. rewrite !app_nil_r. split; [done|]. split; [constructor|].
    split; [|set_solver]. unfold visit_post. rewrite app_nil_r. set_solver.
  - destruct (set_has n visited) eqn:Hn; simpl.
    + apply set_has_true in Hn.
      destruct (IH visited result) as (out & Hrun & Hpre & Hpost & Hin);
        [set_solver|done..|].
      exists out. split; [done|]. split; [by constructor|].
      destruct Hpost as (? & ? & Hroot & ?).
      split; [|set_solver]. unfold visit_post. split_and!; try done.
      intros w Hw. destruct (Hroot w Hw) as (r & ? & ?). exists r. set_solver.
    + apply set_has_false in Hn.
      destruct (Hhelper n visited result) as (out1 & -> & Hpre1 & Hpost1);
        [set_solver|done..|]. simpl.
      destruct Hpost1 as (Hnd1 & Hsub1 & Hroot1 & Hcl1).
      destruct (IH (visited ++ n :: out1) (result ++ n :: out1))
        as (out2 & -> & Hpre2 & Hpost2 & Hin2);
        [set_solver|done|set_solver|rewrite length_app; lia|].
      destruct Hpost2 as (Hnd2 & Hsub2 & Hroot2 & Hcl2).
      exists ((n :: out1) ++ out2). rewrite !(assoc_L (++)).
      split; [done|]. split; [by constructor|].
      split; [|set_solver]. unfold visit_post. rewrite !(assoc_L (++)).
      split_and!; [done|set_solver| |].
      * intros w [Hw|Hw]%elem_of_app.
        -- destruct (Hroot1 w Hw) as (r & ->%list_elem_of_singleton & ?).
           exists n. split; [left|done].
        -- destruct (Hroot2 w Hw) as (r & ? & ?). exists r. split; [by right|done].
      * intros u w [Hu|Hu]%elem_of_app He.
        -- specialize (Hcl1 u w Hu He). set_solver.
        -- by apply (Hcl2 u).
Qed.

Lemma dfsHelper_run g (universe : list ident) (fuel : nat) :
  (∀ u w, edge g u w → w ∈ universe) → dfsHelper_ok g universe fuel.
Proof.
  intros Hclosed. induction fuel as [|fuel IH];
    intros v visited result Hv Hnew Hnd Hsub Hlen.
  - exfalso. assert (NoDup (visited ++ [v])) as Hnd'.
    { apply NoDup_app. split_and!; [done|set_solver|apply NoDup_singleton]. }
    apply NoDup_submseteq with (k := universe) in Hnd'; [|set_solver].
    apply submseteq_length in Hnd'. rewrite length_app in Hnd'. simpl in *. lia.
  - simpl. rewrite set_add_new by done.
    assert (NoDup (visited ++ [v])) as Hnd'.
    { apply NoDup_app. split_and!; [done|set_solver|apply NoDup_singleton]. }
    destruct (dfs_for_of_run g universe fuel Hclosed IH
                (neighbors_of v g) (visited ++ [v]) (result ++ [v]))
      as (out & -> & Hpre & Hpost & Hin);
      [intros w Hw; by eapply Hclosed|done|set_solver
      |rewrite length_app; simpl; lia|].
    exists out. rewrite <-!(assoc_L (++)). simpl.
    split; [done|]. split; [by constructor|].
    destruct Hpost as (Hnd2 & Hsub2 & Hroot2 & Hcl2).
    rewrite <-(assoc_L (++)) in Hnd2, Hin. simpl in *.
    unfold visit_post. split_and!; [done|set_solver| |].
    + intros w [->|Hw]%elem_of_cons; [exists v; split; [left|done]|].
      destruct (Hroot2 w Hw) as (r & Hr & Hrw).
      exists v. split; [left|]. by eapply rtc_l.
    + intros u w [->|Hu]%elem_of_cons He.
      * by apply Hin.
      * specialize (Hcl2 u w Hu He). by rewrite <-(assoc_L (++)) in Hcl2.
Qed.

Lemma dfs_for_of_mono (helper1 helper2 : ident → dfs_state → option dfs_state) :
  (∀ n st r, helper1 n st = Some r → helper2 n st = Some r) →
  ∀ ns st r,
    dfs_for_of helper1 ns st = Some r → dfs_for_of helper2 ns st = Some r.
Proof.
  intros Hle ns. induction ns as [|n ns IH]; intros st r; simpl; [done|].
  destruct (set_has n st.1.2); simpl; [by apply IH|].
  destruct (helper1 n st) as [st1|] eqn:H1; simpl; [|done].
  rewrite (Hle _ _ _ H1). simpl. apply IH.
Qed.

(** More fuel changes no result. *)
Lemma dfsHelper_mono (fuel fuel' : nat) v st r :
  fuel ≤ fuel' → dfsHelper fuel v st = Some r → dfsHelper fuel' v st = Some r.
Proof.
  revert fuel' v st r. induction fuel as [|fuel IH]; intros fuel' v st r Hle; [done|].
  destruct fuel' as [|fuel']; [lia|]. simpl. destruct st as [[g visited] result].
  apply dfs_for_of_mono. intros n st' r'. apply IH. lia.
Qed.

Lemma dfs_within_mono (fuel fuel' : nat) start g out :
  fuel ≤ fuel' → dfs_within fuel start g = Some out →
  dfs_within fuel' start g = Some out.
Proof.
  intros Hle. unfold dfs_within.
  destruct (dfsHelper fuel start (g, [], [])) as [st|] eqn:Hrun; [|done].
  by rewrite (dfsHelper_mono _ _ _ _ _ Hle Hrun).
Qed.

(** The receiver comes back from a call as it went in. *)
Lemma dfs_for_of_frame (helper : ident → dfs_state → option dfs_state) :
  (∀ n st st', helper n st = Some st' → st'.1.1 = st.1.1) →
  ∀ ns st st', dfs_for_of helper ns st = Some st' → st'.1.1 = st.1.1.
Proof.
  intros Hhelper ns. induction ns as [|n ns IH]; intros st st'; simpl.
  - by intros [= ->].
  - destruct (set_has n st.1.2); simpl; [apply IH|].
    destruct (helper n st) as [st1|] eqn:H1; simpl; [|done].
    intros ->%IH. by eapply Hhelper.
Qed.

Lemma dfsHelper_frame (fuel : nat) v (st st' : dfs_state) :
  dfsHelper fuel v st = Some st' → st'.1.1 = st.1.1.
Proof.
  revert v st st'. induction fuel as [|fuel IH]; intros v st st'; simpl; [done|].
  destruct st as [[g visited] result]. intros Hrun.
  by apply (dfs_for_of_frame _ IH) in Hrun.
Qed.

Lemma dfs_run g start :
  ∃ out,
    dfs start g = Some (start :: out, g) ∧
    preorder g [] start (start :: out) ∧
    visit_post g (start :: all_neighbors g) [] [start] (start :: out).
Proof.
  destruct (dfsHelper_run g (start :: all_neighbors g) (1 + edge_count g))
    with (v := start) (visited := @nil ident) (result := @nil ident)
    as (out & Hrun & Hpre & Hpost).
  - intros u w He. right. by eapply edge_all_neighbors.
  - left.
  - apply not_elem_of_nil.
  - constructor.
  - set_solver.
  - simpl. rewrite length_all_neighbors. lia.
  - exists out. unfold dfs, dfs_within. rewrite Hrun. done.
Qed.

Lemma dfs_within_unique g start r (fuel : nat) out :
  dfs start g = Some (r, g) → dfs_within fuel start g = Some out → out = (r, g).
Proof.
  intros Hdfs Hrun. unfold dfs in Hdfs.
  destruct (Nat.le_ge_cases fuel (1 + edge_count g)) as [Hle|Hle].
  - apply (dfs_within_mono _ _ _ _ _ Hle) in Hrun. congruence.
  - apply (dfs_within_mono _ _ _ _ _ Hle) in Hdfs. congruence.
Qed.

(** C2. [dfs(start)] returns, whatever the graph and the start: a sequence
    without repetition, whose members are exactly the vertices reachable
    from [start], and which is the pre-order visit from [start] with nothing
    visited before: [start] first, then for each neighbour in adjacency
    order that is unvisited when its turn comes, its whole visit.  The
    result does not depend on the fuel of the model. *)
Theorem dfs_preorder_reachable g start :
  ∃ r,
    dfs start g = Some (r, g) ∧
    (∀ fuel out, dfs_within fuel start g = Some out → out = (r, g)) ∧
    NoDup r ∧
    (∀ v, v ∈ r ↔ reachable g start v) ∧
    preorder g [] start r.
Proof.
  destruct (dfs_run g start) as (out & Hrun & Hpre & Hnd & _ & Hroot & Hcl).
  exists (start :: out). split; [done|].
  split; [intros fuel out'; by apply dfs_within_unique|].
  split; [done|]. split; [|done]. intros v. split.
  - intros Hv. destruct (Hroot v Hv) as (r & ->%list_elem_of_singleton & ?). done.
  - revert v. apply rtc_ind_r; [left|]. intros u w _ He Hu. by apply (Hcl u).
Qed.

(** C9. The result of [dfs(start)] is never empty and begins with [start];
    when [start] has no adjacency entry it is the singleton [[start]]. *)
Theorem dfs_begins_with_start g start :
  ∃ rest,
    dfs start g = Some (start :: rest, g) ∧
    (map_get start (adjacencyList g) = None → rest = []).
Proof.
  destruct (dfs_run g start) as (out & Hrun & _). exists out. split; [done|].
  intros Habsent. unfold dfs, dfs_within in Hrun. simpl in Hrun.
  rewrite (neighbors_of_absent _ _ Habsent) in Hrun. simpl in Hrun.
  by simplify_eq.
Qed.

(** *** Breadth-first traversal *)

Lemma bfs_enqueue_filter visited ns queue :
  bfs_enqueue visited ns queue = queue ++ filter (λ n, n ∉ visited) ns.
Proof.
  revert queue. induction ns as [|n ns IH]; intros queue; simpl.
  - by rewrite app_nil_r.
  - rewrite IH. destruct (set_has n visited) eqn:Hn; simpl.
    + apply set_has_true in Hn. by rewrite filter_cons_False by naive_solver.
    + apply set_has_false in Hn. rewrite filter_cons_True by done.
      by rewrite <-(assoc_L (++)).
Qed.

Lemma unexplored_mono g visited v :
  unexplored g (visited ++ [v]) ≤ unexplored g visited.
Proof.
  unfold unexplored. induction (adjacencyList g) as [|[k arr] m IH]; simpl; [done|].
  destruct (set_has k visited) eqn:Hk.
  - apply set_has_true in Hk.
    rewrite (proj2 (set_has_true k (visited ++ [v]))) by set_solver. done.
  - destruct (set_has k (visited ++ [v])); lia.
Qed.

Lemma unexplored_visit g visited v :
  v ∉ visited →
  unexplored g (visited ++ [v]) + length (neighbors_of v g) ≤ unexplored g visited.
Proof.
  intros Hv. unfold unexplored, neighbors_of.
  induction (adjacencyList g) as [|[k arr] m IH]; simpl; [done|].
  destruct (decide (k = v)) as [->|Hk].
  - rewrite (proj2 (set_has_true v (visited ++ [v]))) by set_solver.
    rewrite (proj2 (set_has_false v visited)) by done.
    pose proof (unexplored_mono {| adjacencyList := m |} visited v) as Hm.
    unfold unexplored in Hm. simpl in *. lia.
  - assert (set_has k (visited ++ [v]) = set_has k visited) as ->.
    { unfold set_has. apply bool_decide_ext. set_solver. }
    destruct (set_has k visited); lia.
Qed.

Lemma unexplored_edge_count g visited : unexplored g visited ≤ edge_count g.
Proof.
  unfold unexplored, edge_count.
  induction (adjacencyList g) as [|[k arr] m IH]; csimpl; [done|].
  destruct (set_has k visited); lia.
Qed.

(** The loop ends within the fuel that its queue and the unexplored slots
    call for, leaves the graph as it was, and takes an invariant of its two
    branches to its end. *)
Lemma bfs_loop_inv g (I : list ident → list ident → list ident → Prop) :
  (∀ visited v queue result,
     I visited (v :: queue) result → v ∈ visited → I visited queue result) →
  (∀ visited v queue result,
     I visited (v :: queue) result → v ∉ visited →
     I (visited ++ [v])
       (queue ++ filter (λ n, n ∉ visited ++ [v]) (neighbors_of v g))
       (result ++ [v])) →
  ∀ fuel visited queue result,
    I visited queue result →
    length queue + unexplored g visited < fuel →
    ∃ visited' r, bfs_loop fuel g visited queue result = Some (r, g) ∧ I visited' [] r.
Proof.
  intros Hskip Hvisit fuel.
  induction fuel as [|fuel IH]; intros visited queue result HI Hfuel; [lia|].
  simpl. destruct queue as [|v queue]; [by eauto|].
  destruct (set_has v visited) eqn:Hv; simpl.
  - apply set_has_true in Hv. apply IH; [by eapply Hskip|]. simpl in Hfuel. lia.
  - apply set_has_false in Hv. rewrite set_add_new, bfs_enqueue_filter by done.
    apply IH; [by apply Hvisit|].
    pose proof (unexplored_visit g visited v Hv).
    pose proof (length_filter (λ n, n ∉ visited ++ [v]) (neighbors_of v g)).
    rewrite length_app. simpl in Hfuel. lia.
Qed.

Lemma bfs_loop_mono g (fuel fuel' : nat) visited queue result out :
  fuel ≤ fuel' →
  bfs_loop fuel g visited queue result = Some out →
  bfs_loop fuel' g visited queue result = Some out.
Proof.
  revert fuel' visited queue result.
  induction fuel as [|fuel IH]; intros fuel' visited queue result Hle; [done|].
  destruct fuel' as [|fuel']; [lia|]. simpl.
  destruct queue as [|v queue]; [done|].
  destruct (set_has v visited); simpl; apply IH; lia.
Qed.

Lemma bfs_within_unique g start r (fuel : nat) out :
  bfs start g = Some (r, g) → bfs_within fuel start g = Some out → out = (r, g).
Proof.
  intros Hbfs Hrun. unfold bfs, bfs_within in *.
  destruct (Nat.le_ge_cases fuel (2 + edge_count g)) as [Hle|Hle].
  - apply (bfs_loop_mono _ _ _ _ _ _ _ Hle) in Hrun. congruence.
  - apply (bfs_loop_mono _ _ _ _ _ _ _ Hle) in Hbfs. congruence.
Qed.

(** **** The order of first arrival *)

Lemma occurrences_from_app seen l1 l2 :
  occurrences_from seen (l1 ++ l2) =
    occurrences_from (occurrences_from seen l1) l2.
Proof. apply foldl_app. Qed.

Lemma set_add_subseteq (x : ident) seen : seen ⊆ set_add x seen.
Proof. unfold set_add. destruct (set_has x seen); set_solver. Qed.

Lemma occurrences_from_subseteq seen l : seen ⊆ occurrences_from seen l.
Proof.
  revert seen. induction l as [|x l IH]; intros seen; simpl; [done|].
  etrans; [apply (set_add_subseteq x)|apply IH].
Qed.

Lemma occurrences_from_NoDup seen l : NoDup seen → NoDup (occurrences_from seen l).
Proof.
  revert seen. induction l as [|x l IH]; intros seen Hnd; simpl; [done|].
  apply IH. unfold set_add. destruct (set_has x seen) eqn:Hx; [done|].
  apply set_has_false in Hx. apply NoDup_app.
  split_and!; [done|set_solver|apply NoDup_singleton].
Qed.

(** Holding back what has been seen does not change the first
    occurrences. *)
Lemma occurrences_from_filter seen0 seen l :
  seen0 ⊆ seen →
  occurrences_from seen (filter (λ n, n ∉ seen0) l) = occurrences_from seen l.
Proof.
  revert seen. induction l as [|x l IH]; intros seen Hsub; [done|].
  destruct (decide (x ∈ seen0)) as [Hx|Hx].
  - rewrite filter_cons_False by naive_solver. simpl.
    rewrite set_add_old by set_solver. by apply IH.
  - rewrite filter_cons_True by done. simpl. apply IH.
    etrans; [done|apply set_add_subseteq].
Qed.

Lemma arrivals_snoc g start order v :
  arrivals g start (order ++ [v]) = arrivals g start order ++ neighbors_of v g.
Proof. unfold arrivals. rewrite bind_app. simpl. by rewrite app_nil_r. Qed.

(** **** The layers *)

Lemma layers_init g start : bfs_layers g start [] [(start, 0)].
Proof.
  split; simpl.
  - intros v d [= -> ->]%list_elem_of_singleton. constructor.
  - repeat constructor.
  - intros v d rest v' d' [= <- <- <-] []%elem_of_nil.
  - intros u d w []%elem_of_nil.
  - right. left.
  - intros v d k []%elem_of_nil.
Qed.

Lemma layers_sorted_inv g start done v d rest :
  bfs_layers g start done ((v, d) :: rest) →
  (∀ v' d', (v', d') ∈ done → d' ≤ d) ∧
  (∀ v' d', (v', d') ∈ rest → d ≤ d') ∧
  StronglySorted le (done ++ rest).*2.
Proof.
  intros [_ Hsorted _ _ _ _]. rewrite fmap_app, fmap_cons in Hsorted.
  apply StronglySorted_app in Hsorted as (Hcross & Hdone & Hqueue).
  apply StronglySorted_cons in Hqueue as [Hhead Hrest]. simpl in *.
  split_and!.
  - intros v' d' Hin. apply Hcross; [|left].
    by apply (list_elem_of_fmap_2 snd _ (v', d')).
  - intros v' d' Hin. rewrite Forall_forall in Hhead. apply Hhead.
    by apply (list_elem_of_fmap_2 snd _ (v', d')).
  - rewrite fmap_app. apply StronglySorted_app. split_and!; [|done..].
    intros x1 x2 H1 H2. apply Hcross; [done|by right].
Qed.

(** Whatever is nearer to [start] than the head of the queue has been
    output. *)
Lemma layers_frontier g start done v d rest :
  bfs_layers g start done ((v, d) :: rest) →
  ∀ k w, nsteps (edge g) k start w → k < d → w ∈ done.*1.
Proof.
  intros Hl. destruct (layers_sorted_inv _ _ _ _ _ _ Hl) as (_ & Hrest & _).
  induction k as [|k IH]; intros w Hpath Hk.
  - inversion Hpath; subst.
    destruct (layers_start _ _ _ _ Hl) as [?|[[= ? ?]|Hin]%elem_of_cons]; [done|lia|].
    apply Hrest in Hin. lia.
  - apply nsteps_inv_r in Hpath as (u & Hu & He).
    apply IH in Hu as Hdone; [|lia].
    apply list_elem_of_fmap in Hdone as ([u' du] & -> & Hdone). simpl in *.
    pose proof (layers_least _ _ _ _ Hl _ _ _ Hdone Hu).
    destruct (layers_next _ _ _ _ Hl _ _ _ Hdone He)
      as [?|[[= ? ?]|Hin]%elem_of_cons]; [done|lia|].
    apply Hrest in Hin. lia.
Qed.

Lemma layers_skip g start done v d rest :
  bfs_layers g start done ((v, d) :: rest) → v ∈ done.*1 →
  bfs_layers g start done rest.
Proof.
  intros Hl Hv. destruct (layers_sorted_inv _ _ _ _ _ _ Hl) as (_ & Hrest & Hsorted).
  split.
  - intros x dx Hin. apply (layers_path _ _ _ _ Hl). set_solver.
  - done.
  - intros v1 d1 rest1 v' d' -> Hin.
    pose proof (layers_front _ _ _ _ Hl _ _ _ v' d' eq_refl) as Hf.
    specialize (Hrest v1 d1). specialize (Hf ltac:(by right)).
    specialize (Hrest ltac:(left)). lia.
  - intros u du w Hu He.
    destruct (layers_next _ _ _ _ Hl _ _ _ Hu He)
      as [?|[[= ? ?]|Hin]%elem_of_cons]; subst; auto.
  - destruct (layers_start _ _ _ _ Hl) as [?|[[= ? ?]|Hin]%elem_of_cons];
      subst; auto.
  - apply (layers_least _ _ _ _ Hl).
Qed.

Lemma layers_visit g start done v d rest :
  bfs_layers g start done ((v, d) :: rest) → v ∉ done.*1 →
  bfs_layers g start (done ++ [(v, d)])
    (rest ++ ((λ w, (w, S d)) <$>
                filter (λ n, n ∉ done.*1 ++ [v]) (neighbors_of v g))).
Proof.
  intros Hl Hv.
  destruct (layers_sorted_inv _ _ _ _ _ _ Hl) as (Hdone & Hrest & _).
  set (new := (λ w, (w, S d)) <$> _).
  assert (∀ x dx, (x, dx) ∈ new → dx = S d ∧ edge g v x) as Hnew.
  { intros x dx (w & [= -> ->] & Hw%list_elem_of_filter)%list_elem_of_fmap.
    by destruct Hw. }
  assert (∀ x dx, (x, dx) ∈ rest ++ new → d ≤ dx ≤ S d) as Hqueue.
  { intros x dx [Hin|Hin]%elem_of_app.
    - split; [by eapply Hrest|].
      by eapply (layers_front _ _ _ _ Hl _ _ _ x dx eq_refl).
    - apply Hnew in Hin as [-> _]. lia. }
  assert ((done ++ [(v, d)]) ++ rest ++ new = (done ++ (v, d) :: rest) ++ new)
    as Hshape by (by rewrite <-!(assoc_L (++))).
  split.
  - intros x dx. rewrite Hshape. intros [Hin|Hin]%elem_of_app.
    + by apply (layers_path _ _ _ _ Hl).
    + apply Hnew in Hin as [-> He]. eapply nsteps_r; [|done].
      apply (layers_path _ _ _ _ Hl). set_solver.
  - rewrite Hshape, fmap_app. apply StronglySorted_app. split_and!.
    + intros x1 x2 ([y1 d1] & -> & Hin1)%list_elem_of_fmap
                   ([y2 d2] & -> & Hin2)%list_elem_of_fmap. simpl.
      apply Hnew in Hin2 as [-> _].
      apply elem_of_app in Hin1 as [Hin1|[[= ? ?]|Hin1]%elem_of_cons].
      * apply Hdone in Hin1. lia.
      * lia.
      * apply (layers_front _ _ _ _ Hl _ _ _ y1 d1 eq_refl) in Hin1. lia.
    + apply (layers_sorted _ _ _ _ Hl).
    + clear -Hnew. induction new as [|[x dx] new IH]; [constructor|].
      csimpl. constructor.
      * apply IH. intros y dy Hy. apply Hnew. by right.
      * apply Forall_forall. intros d2 ([y dy] & -> & Hy)%list_elem_of_fmap. simpl.
        destruct (Hnew x dx) as [-> _]; [left|].
        destruct (Hnew y dy) as [-> _]; [by right|]. done.
  - intros v1 d1 rest1 v' d' Heq Hin.
    assert (d ≤ d1 ≤ S d) by (apply (Hqueue v1); rewrite Heq; left).
    assert (d ≤ d' ≤ S d) by (apply (Hqueue v'); rewrite Heq; by right).
    lia.
  - intros u du w [Hu|[= ? ?]%list_elem_of_singleton]%elem_of_app He; subst.
    + rewrite fmap_app.
      destruct (layers_next _ _ _ _ Hl _ _ _ Hu He)
        as [?|[[= ? ?]|Hin]%elem_of_cons]; subst; set_solver.
    + rewrite fmap_app. simpl.
      destruct (decide (w ∈ done.*1 ++ [v])) as [Hw|Hw]; [by left|].
      right. apply elem_of_app. right. apply list_elem_of_fmap. exists w.
      split; [done|]. by apply list_elem_of_filter.
  - rewrite fmap_app. simpl.
    destruct (layers_start _ _ _ _ Hl) as [?|[[= ? ?]|Hin]%elem_of_cons];
      subst; set_solver.
  - intros x dx k [Hx|[= ? ?]%list_elem_of_singleton]%elem_of_app Hpath; subst.
    + by apply (layers_least _ _ _ _ Hl x).
    + destruct (decide (d ≤ k)) as [|Hk]; [done|]. exfalso. apply Hv.
      eapply (layers_frontier _ _ _ _ _ _ Hl); [done|lia].
Qed.

Lemma fmap_fst_pair {B : Type} (b : B) l : ((λ w : ident, (w, b)) <$> l).*1 = l.
Proof. induction l as [|x l IH]; csimpl; [done|]. by rewrite IH. Qed.

Lemma bfs_inv_skip g start visited v queue result :
  bfs_inv g start visited (v :: queue) result → v ∈ visited →
  bfs_inv g start visited queue result.
Proof.
  intros (-> & Hocc & done & queued & Hdone & Hqueued & Hl) Hv.
  split; [done|]. split.
  - rewrite Hocc. simpl. by rewrite set_add_old.
  - destruct queued as [|[v' d] rest]; simplify_eq/=.
    exists done, rest. split_and!; [done..|]. by eapply layers_skip.
Qed.

Lemma bfs_inv_visit g start visited v queue result :
  bfs_inv g start visited (v :: queue) result → v ∉ visited →
  bfs_inv g start (visited ++ [v])
    (queue ++ filter (λ n, n ∉ visited ++ [v]) (neighbors_of v g))
    (result ++ [v]).
Proof.
  intros (-> & Hocc & done & queued & Hdone & Hqueued & Hl) Hv.
  split; [done|]. split.
  - unfold first_occurrences in *.
    rewrite arrivals_snoc, occurrences_from_app, Hocc. simpl.
    rewrite set_add_new by done.
    rewrite (occurrences_from_app _ queue).
    rewrite occurrences_from_filter; [done|apply occurrences_from_subseteq].
  - destruct queued as [|[v' d] rest]; simplify_eq/=.
    eexists (done ++ [(v, d)]), _. split_and!; [| |by apply layers_visit].
    + by rewrite fmap_app.
    + by rewrite fmap_app, fmap_fst_pair.
Qed.

Lemma bfs_run g start :
  ∃ done,
    bfs start g = Some (done.*1, g) ∧
    first_occurrences (arrivals g start done.*1) = done.*1 ∧
    bfs_layers g start done [].
Proof.
  destruct (bfs_loop_inv g (bfs_inv g start)
              (bfs_inv_skip g start) (bfs_inv_visit g start)
              (2 + edge_count g) [] [start] [])
    as (visited & r & Hrun & -> & Hocc & done & queued & <- & Hq & Hl).
  - split; [done|]. split; [done|]. exists [], [(start, 0)].
    split_and!; [done..|apply layers_init].
  - pose proof (unexplored_edge_count g []). simpl. lia.
  - apply fmap_nil_inv in Hq as ->. by exists done.
Qed.

(** C1. [bfs(start)] returns, whatever the graph and the start: a sequence
    without repetition, whose members are exactly the vertices reachable
    from [start]; each of them has an edge-distance from [start], and these
    distances never decrease along the sequence; and the order is that of
    first arrival in the queue, the queue receiving [start] and then, for
    each vertex of the output in turn, its neighbours in adjacency order.
    The result does not depend on the fuel of the model. *)
Theorem bfs_layered_arrival_order g start :
  ∃ r depths,
    bfs start g = Some (r, g) ∧
    (∀ fuel out, bfs_within fuel start g = Some out → out = (r, g)) ∧
    NoDup r ∧
    (∀ v, v ∈ r ↔ reachable g start v) ∧
    Forall2 (distance g start) r depths ∧
    StronglySorted le depths ∧
    first_occurrences (arrivals g start r) = r.
Proof.
  destruct (bfs_run g start) as (done & Hrun & Hocc & Hl).
  exists done.*1, done.*2. split; [done|].
  split; [intros fuel out; by apply bfs_within_unique|].
  split_and!.
  - rewrite <-Hocc. apply occurrences_from_NoDup. constructor.
  - intros v. split.
    + intros ([v' d] & -> & Hin)%list_elem_of_fmap.
      eapply rtc_nsteps_2, (layers_path _ _ _ _ Hl). rewrite app_nil_r. done.
    + revert v. apply rtc_ind_r.
      * by destruct (layers_start _ _ _ _ Hl) as [?|?%elem_of_nil].
      * intros u w _ He ([u' d] & -> & Hin)%list_elem_of_fmap.
        by destruct (layers_next _ _ _ _ Hl _ _ _ Hin He) as [?|?%elem_of_nil].
  - apply Forall2_fmap, Forall_Forall2_diag, Forall_forall.
    intros [v d] Hin. split.
    + apply (layers_path _ _ _ _ Hl). by rewrite app_nil_r.
    + intros k. by apply (layers_least _ _ _ _ Hl).
  - pose proof (layers_sorted _ _ _ _ Hl) as Hs. by rewrite app_nil_r in Hs.
  - done.
Qed.

(** C7. When [start] has no adjacency entry, [bfs(start)] returns the
    singleton [[start]]; it does not fail. *)
Theorem bfs_absent_start g start :
  map_get start (adjacencyList g) = None → bfs start g = Some ([start], g).
Proof.
  intros Habsent. unfold bfs, bfs_within. simpl.
  by rewrite (neighbors_of_absent _ _ Habsent).
Qed.

End GraphFacts.

Section ByReferenceFacts.
Context {ident : Type} `{EqDecision ident}.
Implicit Types (h : heap ident) (v start : ident).
Implicit Types (visited queue result : list ident).

Lemma heap_get_put_eq (r : nat) (arr : list ident) h :
  r < length (heap_arrays h) → heap_get r (heap_put r arr h) = arr.
Proof.
  intros Hr. unfold heap_get, heap_put. simpl.
  by rewrite list_lookup_insert_eq.
Qed.

Lemma heap_get_put_ne (r r' : nat) (arr : list ident) h :
  r ≠ r' → heap_get r (heap_put r' arr h) = heap_get r h.
Proof.
  intros Hr. unfold heap_get, heap_put. simpl.
  by rewrite list_lookup_insert_ne.
Qed.

Lemma length_heap_put (r : nat) (arr : list ident) h :
  length (heap_arrays (heap_put r arr h)) = length (heap_arrays h).
Proof. unfold heap_put. simpl. apply length_insert. Qed.

Lemma heap_get_new_old (r : nat) (arr : list ident) h :
  r < length (heap_arrays h) → heap_get r (heap_new arr h).2 = heap_get r h.
Proof.
  intros Hr. unfold heap_get, heap_new. simpl. by rewrite lookup_app_l.
Qed.

Lemma heap_get_new (arr : list ident) h :
  heap_get (heap_new arr h).1 (heap_new arr h).2 = arr.
Proof.
  unfold heap_get, heap_new. simpl.
  by rewrite lookup_app_r, Nat.sub_diag by done.
Qed.

Lemma length_heap_new (arr : list ident) h :
  length (heap_arrays (heap_new arr h).2) = S (length (heap_arrays h)).
Proof. unfold heap_new. simpl. rewrite length_app. simpl. lia. Qed.

Lemma heap_extends_refl h : heap_extends h h.
Proof. split; [done|]. by rewrite firstn_all. Qed.

Lemma heap_extends_length h0 h :
  heap_extends h0 h → length (heap_arrays h0) ≤ length (heap_arrays h).
Proof.
  intros [_ Htake]. apply (f_equal length) in Htake.
  rewrite length_take in Htake. lia.
Qed.

Lemma heap_extends_put h0 h (r : nat) (arr : list ident) :
  heap_extends h0 h → length (heap_arrays h0) ≤ r →
  heap_extends h0 (heap_put r arr h).
Proof.
  intros [Hmap Htake] Hr. split; [done|]. simpl.
  by rewrite take_insert_ge.
Qed.

Lemma heap_extends_new h0 h (arr : list ident) :
  heap_extends h0 h → heap_extends h0 (heap_new arr h).2.
Proof.
  intros Hext. pose proof (heap_extends_length _ _ Hext).
  destruct Hext as [Hmap Htake]. split; [done|]. simpl.
  by rewrite take_app_le.
Qed.

Lemma heap_extends_get h0 h (r : nat) :
  heap_extends h0 h → r < length (heap_arrays h0) →
  heap_get r h = heap_get r h0.
Proof.
  intros [_ Htake] Hr. unfold heap_get.
  rewrite <-(lookup_take_lt (heap_arrays h) (length (heap_arrays h0)) r) by done.
  by rewrite Htake.
Qed.

Lemma heap_extends_lookup h0 h (r : nat) :
  heap_extends h0 h → r < length (heap_arrays h0) →
  heap_arrays h !! r = heap_arrays h0 !! r.
Proof.
  intros [_ Htake] Hr.
  rewrite <-(lookup_take_lt (heap_arrays h) (length (heap_arrays h0)) r) by done.
  by rewrite Htake.
Qed.

Lemma heap_extends_graph h0 h :
  heap_wf h0 → heap_extends h0 h → graph_of h = graph_of h0.
Proof.
  intros Hwf Hext. unfold graph_of. f_equal. destruct (Hext) as [-> _].
  apply list_fmap_ext. intros i [k r] Hi. unfold prod_map. simpl. f_equal.
  apply heap_extends_get; [done|].
  by apply (Forall_lookup_1 _ _ _ _ Hwf Hi).
Qed.

Lemma neighbors_ref_extends h0 h v (neighbors : nat) h' :
  heap_extends h0 h → neighbors_ref v h = (neighbors, h') → heap_extends h0 h'.
Proof.
  intros Hext. unfold neighbors_ref.
  destruct (map_get v (heap_map h)); intros [= _ <-]; [done|].
  by apply heap_extends_new.
Qed.

(** **** What a run writes *)

Lemma bfs_for_of_ref_extends h0 (fuel neighbors visited queue : nat) :
  length (heap_arrays h0) ≤ queue →
  ∀ (i : nat) h h', heap_extends h0 h →
    bfs_for_of_ref fuel neighbors visited queue i h = Some h' →
    heap_extends h0 h'.
Proof.
  intros Hq. induction fuel as [|fuel IH]; intros i h h' Hext; simpl; [done|].
  destruct (heap_get neighbors h !! i) as [neighbor|]; [|by intros [= <-]].
  apply IH. destruct (negb _); [|done]. by apply heap_extends_put.
Qed.

Lemma bfs_loop_ref_extends h0 (fuel visited queue result : nat) :
  length (heap_arrays h0) ≤ visited → length (heap_arrays h0) ≤ queue →
  length (heap_arrays h0) ≤ result →
  ∀ h r h', heap_extends h0 h →
    bfs_loop_ref fuel visited queue result h = Some (r, h') →
    heap_extends h0 h'.
Proof.
  intros Hv Hq Hr. induction fuel as [|fuel IH]; intros h r h' Hext; simpl; [done|].
  destruct (heap_get queue h) as [|vertex rest]; [by intros [= _ <-]|].
  destruct (negb _).
  - destruct (neighbors_ref vertex _) as [neighbors h1] eqn:Hn.
    destruct (bfs_for_of_ref fuel neighbors visited queue 0 h1) as [h2|] eqn:Hfor;
      simpl; [|done].
    apply IH.
    eapply (bfs_for_of_ref_extends h0 fuel neighbors visited queue Hq);
      [|exact Hfor].
    eapply neighbors_ref_extends; [|exact Hn].
    by repeat apply heap_extends_put.
  - apply IH. by apply heap_extends_put.
Qed.

Lemma bfs_ref_extends (fuel : nat) start h0 r h' :
  bfs_ref fuel start h0 = Some (r, h') → heap_extends h0 h'.
Proof.
  unfold bfs_ref. simpl. apply bfs_loop_ref_extends; simpl;
    rewrite ?length_app; simpl; try lia.
  split; [done|]. simpl. rewrite <-!(assoc_L (++)).
  by rewrite take_app_length.
Qed.

Lemma dfs_for_of_ref_extends h0 (helper : ident → heap ident → option (heap ident))
    (fuel neighbors visited : nat) :
  (∀ v h h', heap_extends h0 h → helper v h = Some h' → heap_extends h0 h') →
  ∀ (i : nat) h h', heap_extends h0 h →
    dfs_for_of_ref helper fuel neighbors visited i h = Some h' →
    heap_extends h0 h'.
Proof.
  intros Hhelper. induction fuel as [|fuel IH]; intros i h h' Hext; simpl; [done|].
  destruct (heap_get neighbors h !! i) as [neighbor|]; [|by intros [= <-]].
  destruct (negb _); [|by apply IH].
  destruct (helper neighbor h) as [h1|] eqn:Hrun; simpl; [|done].
  apply IH. by eapply Hhelper.
Qed.

Lemma dfsHelper_ref_extends h0 (fuel visited result : nat) :
  length (heap_arrays h0) ≤ visited → length (heap_arrays h0) ≤ result →
  ∀ v h h', heap_extends h0 h →
    dfsHelper_ref fuel visited result v h = Some h' → heap_extends h0 h'.
Proof.
  intros Hv Hr. induction fuel as [|fuel IH]; intros v h h' Hext; simpl; [done|].
  destruct (neighbors_ref v _) as [neighbors h1] eqn:Hn.
  apply dfs_for_of_ref_extends; [done|].
  eapply neighbors_ref_extends; [|exact Hn].
  by repeat apply heap_extends_put.
Qed.

Lemma dfs_ref_extends (fuel : nat) start h0 r h' :
  dfs_ref fuel start h0 = Some (r, h') → heap_extends h0 h'.
Proof.
  unfold dfs_ref. simpl.
  destruct (dfsHelper_ref _ _ _ _ _) as [h1|] eqn:Hrun; simpl; [|done].
  intros [= _ <-]. revert Hrun. apply dfsHelper_ref_extends; simpl;
    rewrite ?length_app; simpl; try lia.
  split; [done|]. simpl. rewrite <-!(assoc_L (++)).
  by rewrite take_app_length.
Qed.

(** **** The runs on objects follow the runs on values *)

Lemma map_get_graph_of h v :
  map_get v (adjacencyList (graph_of h)) =
    (λ r, heap_get r h) <$> map_get v (heap_map h).
Proof.
  unfold graph_of. simpl.
  induction (heap_map h) as [|[k r] m IH]; csimpl; [done|].
  by destruct (decide (k = v)).
Qed.

Lemma bfs_store_put_queue h0 h visited queue result queue' :
  bfs_store h0 h visited queue result →
  bfs_store h0 (heap_put (length (heap_arrays h0) + 1) queue' h)
    visited queue' result.
Proof.
  intros (Hext & Hlen & Hv & Hq & Hr).
  split_and!; rewrite ?length_heap_put; try done.
  - apply heap_extends_put; [done|lia].
  - rewrite heap_get_put_ne; [done|lia].
  - apply heap_get_put_eq. lia.
  - rewrite heap_get_put_ne; [done|lia].
Qed.

Lemma bfs_store_put_visited h0 h visited queue result visited' :
  bfs_store h0 h visited queue result →
  bfs_store h0 (heap_put (length (heap_arrays h0)) visited' h)
    visited' queue result.
Proof.
  intros (Hext & Hlen & Hv & Hq & Hr).
  split_and!; rewrite ?length_heap_put; try done.
  - by apply heap_extends_put.
  - apply heap_get_put_eq. lia.
  - rewrite heap_get_put_ne; [done|lia].
  - rewrite heap_get_put_ne; [done|lia].
Qed.

Lemma bfs_store_put_result h0 h visited queue result result' :
  bfs_store h0 h visited queue result →
  bfs_store h0 (heap_put (length (heap_arrays h0) + 2) result' h)
    visited queue result'.
Proof.
  intros (Hext & Hlen & Hv & Hq & Hr).
  split_and!; rewrite ?length_heap_put; try done.
  - apply heap_extends_put; [done|lia].
  - rewrite heap_get_put_ne; [done|lia].
  - rewrite heap_get_put_ne; [done|lia].
  - apply heap_get_put_eq. lia.
Qed.

(** The array a traversal iterates for [v]: the one of the map, below the
    objects of the run, or a new empty one above them. *)
Lemma neighbors_ref_graph_of h0 h v (neighbors : nat) h' :
  heap_wf h0 → heap_extends h0 h →
  neighbors_ref v h = (neighbors, h') →
  (neighbors < length (heap_arrays h0) ∧ h' = h ∧
     heap_get neighbors h0 = neighbors_of v (graph_of h0)) ∨
  (neighbors = length (heap_arrays h) ∧ h' = (heap_new [] h).2 ∧
     neighbors_of v (graph_of h0) = []).
Proof.
  intros Hwf Hext. unfold neighbors_ref, neighbors_of.
  rewrite map_get_graph_of. destruct (Hext) as [-> _].
  destruct (map_get v (heap_map h0)) as [r|] eqn:Hr; intros [= <- <-].
  - left. split_and!; [|done..]. apply map_get_elem_of in Hr.
    unfold heap_wf in Hwf. rewrite Forall_forall in Hwf. by apply (Hwf (v, r)).
  - by right.
Qed.

Lemma bfs_store_neighbors h0 h v visited queue result (neighbors : nat) h' :
  heap_wf h0 → bfs_store h0 h visited queue result →
  neighbors_ref v h = (neighbors, h') →
  bfs_store h0 h' visited queue result ∧
  heap_get neighbors h' = neighbors_of v (graph_of h0) ∧
  neighbors ≠ length (heap_arrays h0) + 1.
Proof.
  intros Hwf Hst Hn. destruct (Hst) as (Hext & Hlen & Hv & Hq & Hr).
  destruct (neighbors_ref_graph_of _ _ _ _ _ Hwf Hext Hn)
    as [(Hlt & -> & Hget)|(-> & -> & Hnil)].
  - split_and!; [done| |lia]. by rewrite (heap_extends_get h0 h).
  - split_and!; [| |lia].
    + split_and!; rewrite ?length_heap_new, ?heap_get_new_old by lia;
        try done; try lia. by apply heap_extends_new.
    + rewrite Hnil. apply (heap_get_new [] h).
Qed.

Lemma bfs_for_of_ref_sim h0 (neighbors : nat) (ns : list ident) :
  neighbors ≠ length (heap_arrays h0) + 1 →
  ∀ (fuel i : nat) h visited queue result,
    bfs_store h0 h visited queue result →
    heap_get neighbors h = ns →
    length ns - i < fuel →
    ∃ h',
      bfs_for_of_ref fuel neighbors (length (heap_arrays h0))
        (length (heap_arrays h0) + 1) i h = Some h' ∧
      bfs_store h0 h' visited
        (queue ++ filter (λ n, n ∉ visited) (drop i ns)) result.
Proof.
  intros Hne fuel.
  induction fuel as [|fuel IH]; intros i h visited queue result Hst Hns Hfuel;
    [lia|].
  simpl. rewrite Hns. destruct (ns !! i) as [neighbor|] eqn:Hi.
  - rewrite (drop_S _ _ _ Hi). apply lookup_lt_Some in Hi as Hlt.
    destruct (Hst) as (_ & _ & -> & -> & _).
    destruct (set_has neighbor _) eqn:Hhas; simpl.
    + apply set_has_true in Hhas. rewrite filter_cons_False by naive_solver.
      apply IH; [done..|lia].
    + apply set_has_false in Hhas. rewrite filter_cons_True by done.
      replace (queue ++ neighbor :: filter (λ n, n ∉ visited) (drop (S i) ns))
        with ((queue ++ [neighbor]) ++ filter (λ n, n ∉ visited) (drop (S i) ns))
        by (by rewrite <-(assoc_L (++))).
      apply IH; [|..|lia].
      * by eapply bfs_store_put_queue.
      * by rewrite heap_get_put_ne.
  - apply lookup_ge_None in Hi. rewrite drop_ge by done.
    rewrite filter_nil, app_nil_r. by exists h.
Qed.

Lemma bfs_loop_ref_sim h0 :
  heap_wf h0 →
  ∀ (fuel : nat) h visited queue result out,
    bfs_store h0 h visited queue result →
    bfs_loop fuel (graph_of h0) visited queue result = Some out →
    ∃ h',
      bfs_loop_ref (fuel + S (edge_count (graph_of h0)))
        (length (heap_arrays h0)) (length (heap_arrays h0) + 1)
        (length (heap_arrays h0) + 2) h = Some (out.1, h').
Proof.
  intros Hwf fuel.
  induction fuel as [|fuel IH]; intros h visited queue result out Hst; [done|].
  simpl. destruct (Hst) as (_ & _ & Hv & Hq & Hr). rewrite Hq.
  destruct queue as [|v queue]; [intros [= <-]; simpl; rewrite Hr; by eexists|].
  apply (bfs_store_put_queue _ _ _ _ _ queue) in Hst as Hst1.
  destruct (Hst1) as (_ & _ & -> & _ & _).
  destruct (set_has v visited) eqn:Hhas; simpl; [by apply IH|].
  apply (bfs_store_put_visited _ _ _ _ _ (set_add v visited)) in Hst1 as Hst2.
  destruct (Hst2) as (_ & _ & _ & _ & ->).
  apply (bfs_store_put_result _ _ _ _ _ (result ++ [v])) in Hst2 as Hst3.
  destruct (neighbors_ref v _) as [neighbors h4] eqn:Hn.
  destruct (bfs_store_neighbors _ _ _ _ _ _ _ _ Hwf Hst3 Hn)
    as (Hst4 & Hns & Hne).
  destruct (bfs_for_of_ref_sim h0 neighbors _ Hne
              (fuel + S (edge_count (graph_of h0))) 0 _ _ _ _ Hst4 Hns)
    as (h5 & -> & Hst5).
  { pose proof (neighbors_of_length (graph_of h0) v). lia. }
  simpl. rewrite drop_0, <-bfs_enqueue_filter in Hst5. by apply IH.
Qed.

Lemma bfs_store_init h0 start :
  bfs_store h0 (heap_new [] (heap_new [start] (heap_new [] h0).2).2).2
    [] [start] [].
Proof.
  unfold bfs_store, heap_get. simpl. rewrite !length_app. simpl.
  split_and!; [|lia|..].
  - split; [done|]. simpl. rewrite <-!(assoc_L (++)). by rewrite take_app_length.
  - rewrite <-!(assoc_L (++)). by rewrite lookup_app_r, Nat.sub_diag.
  - rewrite lookup_app_l by (rewrite !length_app; simpl; lia).
    rewrite lookup_app_r by (rewrite !length_app; simpl; lia).
    rewrite length_app. simpl.
    by replace (length (heap_arrays h0) + 1 - (length (heap_arrays h0) + 1))
      with 0 by lia.
  - rewrite lookup_app_r by (rewrite !length_app; simpl; lia).
    rewrite !length_app. simpl.
    by replace (length (heap_arrays h0) + 2 - (length (heap_arrays h0) + 1 + 1))
      with 0 by lia.
Qed.

Lemma bfs_ref_sim h0 start r g :
  heap_wf h0 → bfs start (graph_of h0) = Some (r, g) →
  ∃ (fuel : nat) h', bfs_ref fuel start h0 = Some (r, h').
Proof.
  intros Hwf Hrun. unfold bfs, bfs_within in Hrun.
  destruct (bfs_loop_ref_sim h0 Hwf _ _ _ _ _ _ (bfs_store_init h0 start) Hrun)
    as [h' Hh'].
  eexists _, h'. unfold bfs_ref. simpl. rewrite !length_app. simpl.
  replace (length (heap_arrays h0) + 1 + 1)
    with (length (heap_arrays h0) + 2) by lia.
  exact Hh'.
Qed.

Lemma dfs_store_put_visited h0 h visited result visited' :
  dfs_store h0 h visited result →
  dfs_store h0 (heap_put (length (heap_arrays h0)) visited' h) visited' result.
Proof.
  intros (Hext & Hlen & Hv & Hr).
  split_and!; rewrite ?length_heap_put; try done.
  - by apply heap_extends_put.
  - apply heap_get_put_eq. lia.
  - rewrite heap_get_put_ne; [done|lia].
Qed.

Lemma dfs_store_put_result h0 h visited result result' :
  dfs_store h0 h visited result →
  dfs_store h0 (heap_put (length (heap_arrays h0) + 1) result' h) visited result'.
Proof.
  intros (Hext & Hlen & Hv & Hr).
  split_and!; rewrite ?length_heap_put; try done.
  - apply heap_extends_put; [done|lia].
  - rewrite heap_get_put_ne; [done|lia].
  - apply heap_get_put_eq. lia.
Qed.

Lemma dfs_store_new h0 h visited result (arr : list ident) :
  dfs_store h0 h visited result →
  dfs_store h0 (heap_new arr h).2 visited result.
Proof.
  intros (Hext & Hlen & Hv & Hr).
  split_and!; rewrite ?length_heap_new, ?heap_get_new_old by lia;
    try done; try lia.
  by apply heap_extends_new.
Qed.

Lemma dfs_for_of_ref_empty (helper : ident → heap ident → option (heap ident))
    (fuel neighbors visited : nat) h :
  heap_get neighbors h = [] →
  dfs_for_of_ref helper (S fuel) neighbors visited 0 h = Some h.
Proof. intros Hnil. simpl. by rewrite Hnil. Qed.

Lemma dfs_for_of_ref_sim h0 (n : nat)
    (helper : ident → heap ident → option (heap ident)) (neighbors : nat) :
  dfs_simulated h0 n helper →
  neighbors < length (heap_arrays h0) →
  ∀ (fuel i : nat) h visited result st',
    dfs_store h0 h visited result →
    dfs_for_of (dfsHelper n) (drop i (heap_get neighbors h0))
      (graph_of h0, visited, result) = Some st' →
    length (heap_get neighbors h0) - i < fuel →
    ∃ h',
      dfs_for_of_ref helper fuel neighbors (length (heap_arrays h0)) i h =
        Some h' ∧
      dfs_store h0 h' st'.1.2 st'.2.
Proof.
  intros Hhelper Hlt fuel.
  induction fuel as [|fuel IH]; intros i h visited result st' Hst Hrun Hfuel;
    [lia|].
  simpl. destruct (Hst) as (Hext & _ & Hv & _).
  rewrite (heap_extends_get h0 h) by done.
  destruct (heap_get neighbors h0 !! i) as [neighbor|] eqn:Hi.
  - rewrite (drop_S _ _ _ Hi) in Hrun. simpl in Hrun. rewrite Hv.
    apply lookup_lt_Some in Hi.
    destruct (set_has neighbor visited); simpl in *.
    + eapply IH; [done..|lia].
    + destruct (dfsHelper n neighbor (graph_of h0, visited, result))
        as [[[g1 visited1] result1]|] eqn:Hcall; simpl in Hrun; [|done].
      destruct (Hhelper _ _ _ _ _ Hst Hcall) as (h1 & -> & Hst1). simpl in *.
      apply dfsHelper_frame in Hcall. simpl in Hcall. subst g1.
      eapply IH; [done..|lia].
  - apply lookup_ge_None in Hi. rewrite drop_ge in Hrun by done.
    simpl in Hrun. injection Hrun as <-. by exists h.
Qed.

Lemma dfsHelper_ref_sim h0 :
  heap_wf h0 →
  ∀ n : nat,
    dfs_simulated h0 n
      (dfsHelper_ref (n + S (edge_count (graph_of h0)))
         (length (heap_arrays h0)) (length (heap_arrays h0) + 1)).
Proof.
  intros Hwf n.
  induction n as [|n IH]; intros v visited result h st' Hst Hrun; [done|].
  simpl in *. destruct (Hst) as (_ & _ & -> & _).
  apply (dfs_store_put_visited _ _ _ _ (set_add v visited)) in Hst as Hst1.
  destruct (Hst1) as (_ & _ & _ & ->).
  apply (dfs_store_put_result _ _ _ _ (result ++ [v])) in Hst1 as Hst2.
  destruct (neighbors_ref v _) as [neighbors h3] eqn:Hn.
  destruct (Hst2) as (Hext2 & Hlen2 & Hv2 & Hr2).
  destruct (neighbors_ref_graph_of _ _ _ _ _ Hwf Hext2 Hn)
    as [(Hlt & -> & Hget)|(-> & -> & Hnil)].
  - eapply (dfs_for_of_ref_sim h0 n _ neighbors IH Hlt); [done| |].
    + by rewrite drop_0, Hget.
    + rewrite Hget. pose proof (neighbors_of_length (graph_of h0) v). lia.
  - rewrite Hnil in Hrun. simpl in Hrun. injection Hrun as <-.
    replace (n + S (edge_count (graph_of h0)))
      with (S (n + edge_count (graph_of h0))) by lia.
    rewrite dfs_for_of_ref_empty by apply (heap_get_new []).
    eexists; split; [done|]. by apply dfs_store_new.
Qed.

Lemma dfs_store_init h0 :
  dfs_store h0 (heap_new [] (heap_new [] h0).2).2 [] [].
Proof.
  unfold dfs_store, heap_get. simpl. rewrite !length_app. simpl.
  split_and!; [|lia|..].
  - split; [done|]. simpl. rewrite <-!(assoc_L (++)). by rewrite take_app_length.
  - rewrite <-!(assoc_L (++)). by rewrite lookup_app_r, Nat.sub_diag.
  - rewrite lookup_app_r by (rewrite !length_app; simpl; lia).
    rewrite length_app. simpl.
    by replace (length (heap_arrays h0) + 1 - (length (heap_arrays h0) + 1))
      with 0 by lia.
Qed.

Lemma dfs_ref_sim h0 start r g :
  heap_wf h0 → dfs start (graph_of h0) = Some (r, g) →
  ∃ (fuel : nat) h', dfs_ref fuel start h0 = Some (r, h').
Proof.
  intros Hwf Hrun. unfold dfs, dfs_within in Hrun.
  destruct (dfsHelper _ _ _) as [[[g1 visited1] result1]|] eqn:Hcall;
    simpl in Hrun; [|done].
  injection Hrun as <- <-.
  destruct (dfsHelper_ref_sim h0 Hwf _ _ _ _ _ _ (dfs_store_init h0) Hcall)
    as (h' & Hh' & Hst').
  exists (1 + edge_count (graph_of h0) + S (edge_count (graph_of h0))), h'.
  unfold dfs_ref. cbn [heap_new heap_arrays heap_map fst snd] in Hh' |- *.
  rewrite length_app. cbn [length]. rewrite Hh'.
  destruct Hst' as (_ & _ & _ & Hr). cbn [fst snd] in Hr.
  cbn [mbind option_bind]. by rewrite Hr.
Qed.

(** Every graph is the graph of a store. *)
Lemma graph_of_heap_of (g : Graph ident) :
  heap_wf (heap_of g) ∧ graph_of (heap_of g) = g.
Proof.
  split.
  - unfold heap_wf, heap_of. simpl. apply Forall_lookup_2. intros i [k r] Hi.
    rewrite list_lookup_imap in Hi. rewrite length_fmap.
    destruct (adjacencyList g !! i) as [entry|] eqn:He; simplify_eq/=.
    by eapply lookup_lt_Some.
  - destruct g as [m]. unfold graph_of, heap_of. simpl. f_equal.
    apply list_eq. intros i. rewrite list_lookup_fmap, list_lookup_imap.
    destruct (m !! i) as [[k arr]|] eqn:He; simpl; [|done].
    unfold prod_map, heap_get. simpl.
    by rewrite list_lookup_fmap, He.
Qed.

(** C10. Neither traversal changes the graph.  On a store of objects whose
    map refers to arrays it holds, [bfs(start)] and [dfs(start)] return,
    with the sequences the traversals on values return; and every run that
    returns leaves the map as it was and every object that existed before
    the call as it was: it writes only to the objects it created.  So the
    graph the store holds after the call is the graph it held before. *)
Theorem traversals_leave_graph h0 start :
  heap_wf h0 →
  (∃ (fuel : nat) r h',
     bfs_ref fuel start h0 = Some (r, h') ∧
     bfs start (graph_of h0) = Some (r, graph_of h0)) ∧
  (∃ (fuel : nat) r h',
     dfs_ref fuel start h0 = Some (r, h') ∧
     dfs start (graph_of h0) = Some (r, graph_of h0)) ∧
  ∀ (fuel : nat) r h',
    bfs_ref fuel start h0 = Some (r, h') ∨ dfs_ref fuel start h0 = Some (r, h') →
    heap_map h' = heap_map h0 ∧
    (∀ ref : nat, ref < length (heap_arrays h0) →
       heap_arrays h' !! ref = heap_arrays h0 !! ref) ∧
    graph_of h' = graph_of h0.
Proof.
  intros Hwf. split_and!.
  - destruct (bfs_run (graph_of h0) start) as (done & Hrun & _).
    destruct (bfs_ref_sim _ _ _ _ Hwf Hrun) as (fuel & h' & Href).
    by exists fuel, done.*1, h'.
  - destruct (dfs_run (graph_of h0) start) as (out & Hrun & _).
    destruct (dfs_ref_sim _ _ _ _ Hwf Hrun) as (fuel & h' & Href).
    by exists fuel, (start :: out), h'.
  - intros fuel r h' Hrun.
    assert (heap_extends h0 h') as Hext.
    { destruct Hrun as [Hrun|Hrun];
        [by eapply bfs_ref_extends|by eapply dfs_ref_extends]. }
    split_and!.
    + by destruct Hext.
    + intros ref Href. by apply heap_extends_lookup.
    + by apply heap_extends_graph.
Qed.

End ByReferenceFacts.

Section ExportFacts.
Context {ident : Type} `{EqDecision ident}.
Variable toString : ident → string.
Implicit Types (this g : Graph ident) (v w a b start : ident).
Implicit Types (l : list ident).

(** *** Adjacency-list text *)

Lemma string_app_cons c (s1 s2 : string) :
  String c s1 +:+ s2 = String c (s1 +:+ s2).
Proof. reflexivity. Qed.

Lemma string_app_assoc (s1 s2 s3 : string) :
  (s1 +:+ s2) +:+ s3 = s1 +:+ (s2 +:+ s3).
Proof.
  induction s1 as [|c s1 IH]; [done|]. by rewrite !string_app_cons, IH.
Qed.

Lemma string_app_nil_r (s : string) : s +:+ "" = s.
Proof.
  induction s as [|c s IH]; [done|]. by rewrite string_app_cons, IH.
Qed.

Lemma join_concat (sep : string) l :
  join toString sep l = String.concat sep (toString <$> l).
Proof.
  induction l as [|x l IH]; [done|].
  destruct l as [|y l]; [done|]. simpl in *. by rewrite IH.
Qed.

Lemma getAdjacencyList_loop_lines (entries : JsMap ident (list ident)) (text : string) :
  getAdjacencyList_loop toString entries text =
    text +:+ text_of_lines (text_line toString <$> entries).
Proof.
  revert text. induction entries as [|[v ns] entries IH]; intros text; simpl.
  - by rewrite string_app_nil_r.
  - rewrite IH, string_app_assoc. unfold text_line at 2. simpl.
    by rewrite join_concat.
Qed.

(** C8. [getAdjacencyList()] leaves the graph as it was and returns the
    text made of one line per entry of the map, in the map's iteration
    order, the line of a vertex being its string, [: [], the strings of
    its neighbours in sequence order separated by [, ], [[]]] and a line
    end. *)
Theorem getAdjacencyList_lines g :
  getAdjacencyList toString g =
    (text_of_lines (text_line toString <$> adjacencyList g), g) ∧
  length (text_line toString <$> adjacencyList g) =
    length (map_keys (adjacencyList g)) ∧
  ∀ i v ns, adjacencyList g !! i = Some (v, ns) →
    (text_line toString <$> adjacencyList g) !! i =
      Some (toString v +:+ ": [" +:+ String.concat ", " (toString <$> ns)
              +:+ "]" +:+ newline).
Proof.
  split_and!.
  - unfold getAdjacencyList. by rewrite getAdjacencyList_loop_lines.
  - unfold map_keys. by rewrite !length_fmap.
  - intros i v ns Hi. by rewrite list_lookup_fmap, Hi.
Qed.

(** *** Adjacency matrix *)

Global Instance default_le_trans : Transitive (default_le toString).
Proof. intros x y z. unfold default_le. apply transitivity. Qed.

Global Instance default_le_total : Total (default_le toString).
Proof. intros x y. unfold default_le. apply total, _. Qed.

Lemma sort_insert_perm x l : sort_insert toString x l ≡ₚ x :: l.
Proof.
  induction l as [|y l IH]; simpl; [done|].
  case_decide; [done|]. by rewrite IH, Permutation_swap.
Qed.

Lemma array_sort_perm l : array_sort toString l ≡ₚ l.
Proof.
  induction l as [|x l IH]; simpl; [done|].
  by rewrite sort_insert_perm, IH.
Qed.

Lemma sort_insert_sorted x l :
  StronglySorted (default_le toString) l →
  StronglySorted (default_le toString) (sort_insert toString x l).
Proof.
  induction 1 as [|y l Hl IH Hy]; simpl.
  - repeat constructor.
  - case_decide as Hxy.
    + constructor; [by constructor|]. constructor; [done|].
      eapply Forall_impl; [done|]. intros z Hz. by etrans.
    + constructor; [done|]. rewrite sort_insert_perm. constructor; [|done].
      by destruct (total (default_le toString) x y).
Qed.

Lemma array_sort_sorted l :
  StronglySorted (default_le toString) (array_sort toString l).
Proof.
  induction l as [|x l IH]; simpl; [constructor|].
  by apply sort_insert_sorted.
Qed.

Lemma for_range_inv {St : Type} (P : nat → St → Prop)
    (body : nat → St → option St) (count : nat) : ∀ first s,
  P first s →
  (∀ i s, first ≤ i < first + count → P i s →
          ∃ s', body i s = Some s' ∧ P (S i) s') →
  ∃ s', for_range first count body s = Some s' ∧ P (first + count) s'.
Proof.
  induction count as [|count IH]; intros first s Hs Hbody; simpl.
  - exists s. by rewrite Nat.add_0_r.
  - destruct (Hbody first s) as (s1 & -> & Hs1); [lia|done|]. simpl.
    destruct (IH (S first) s1) as (s2 & -> & Hs2); [done| |].
    + intros i s' ? ?. apply Hbody; [lia|done].
    + exists s2. split; [done|]. by replace (first + S count) with (S first + count) by lia.
Qed.

Lemma cell_insert (matrix : list (list nat)) (row : list nat) (i j x i' j' : nat) :
  matrix !! i = Some row → j < length row →
  cell (<[i := <[j := x]> row]> matrix) i' j' =
    if decide (i = i' ∧ j = j') then Some x else cell matrix i' j'.
Proof.
  intros Hrow Hj. unfold cell. destruct (decide (i = i')) as [<-|Hi].
  - rewrite list_lookup_insert_eq by (by eapply lookup_lt_Some). simpl.
    rewrite Hrow. simpl. destruct (decide (j = j')) as [<-|Hjj].
    + rewrite decide_True by done. by apply list_lookup_insert_eq.
    + rewrite decide_False by (by intros [_ ?]). by apply list_lookup_insert_ne.
  - rewrite decide_False by (by intros [? _]). by rewrite list_lookup_insert_ne.
Qed.

Lemma square_insert (n i j x : nat) (matrix : list (list nat)) (row : list nat) :
  square n matrix → matrix !! i = Some row →
  square n (<[i := <[j := x]> row]> matrix).
Proof.
  intros [Hlen Hrows] Hrow. split; [by rewrite length_insert|].
  apply Forall_insert; [done|]. rewrite length_insert.
  by eapply (Forall_lookup_1 _ _ _ _ Hrows).
Qed.

Lemma cell_replicate (n i j : nat) :
  i < n → j < n → cell (replicate n (replicate n 0)) i j = Some 0.
Proof.
  intros Hi Hj. unfold cell. rewrite lookup_replicate_2 by done. simpl.
  by apply lookup_replicate_2.
Qed.

(** The state of the matrix when the cells before [(i, j)], row by row,
    have been dealt with. *)
Lemma matrix_cell_step g (vs : list ident) (i j : nat) (matrix : list (list nat)) :
  (∀ v, v ∈ vs → is_Some (map_get v (adjacencyList g))) →
  i < length vs → j < length vs →
  square (length vs) matrix →
  (∀ i' j' vi vj, vs !! i' = Some vi → vs !! j' = Some vj →
     cell matrix i' j' =
       Some (if decide (i' < i ∨ (i' = i ∧ j' < j)) then adjacent g vi vj else 0)) →
  ∃ matrix', matrix_cell g vs i j matrix = Some matrix' ∧
    square (length vs) matrix' ∧
    ∀ i' j' vi vj, vs !! i' = Some vi → vs !! j' = Some vj →
      cell matrix' i' j' =
        Some (if decide (i' < i ∨ (i' = i ∧ j' < S j)) then adjacent g vi vj else 0).
Proof.
  intros Hkeys Hi Hj Hsq Hcells. unfold matrix_cell.
  destruct (lookup_lt_is_Some_2 vs i Hi) as [v1 Hv1].
  destruct (lookup_lt_is_Some_2 vs j Hj) as [v2 Hv2].
  rewrite Hv1, Hv2. simpl.
  destruct (Hkeys v1) as [arr Harr]; [by eapply list_elem_of_lookup_2|].
  rewrite Harr. simpl.
  assert (adjacent g v1 v2 = if includes v2 arr then 1 else 0) as Hadj.
  { unfold adjacent, neighbors_of. by rewrite Harr. }
  destruct (includes v2 arr) eqn:Hinc.
  - destruct Hsq as [Hlen Hrows].
    destruct (lookup_lt_is_Some_2 matrix i) as [row Hrow]; [lia|].
    assert (length row = length vs) as Hrowlen
      by (by eapply (Forall_lookup_1 _ _ _ _ Hrows)).
    rewrite Hrow. simpl. eexists; split; [done|].
    split; [by apply square_insert|].
    intros i' j' vi vj Hvi Hvj. rewrite cell_insert by (done || lia).
    case_decide as Hij.
    + destruct Hij as [<- <-]. simplify_eq.
      rewrite decide_True by lia. by rewrite Hadj.
    + rewrite (Hcells i' j' vi vj) by done. f_equal.
      repeat case_decide; try done; lia.
  - eexists; split; [done|]. split; [done|].
    intros i' j' vi vj Hvi Hvj. rewrite (Hcells i' j' vi vj) by done. f_equal.
    destruct (decide (i' = i ∧ j' = j)) as [[-> ->]|Hij].
    + simplify_eq. rewrite decide_False by lia. rewrite decide_True by lia.
      by rewrite Hadj.
    + repeat case_decide; try done; lia.
Qed.

Lemma getAdjacencyMatrix_cells g :
  let vertices := array_sort toString (map_keys (adjacencyList g)) in
  ∃ matrix, getAdjacencyMatrix toString g = Some ((matrix, vertices), g) ∧
    square (length vertices) matrix ∧
    ∀ i j vi vj, vertices !! i = Some vi → vertices !! j = Some vj →
      cell matrix i j = Some (adjacent g vi vj).
Proof.
  intros vs. unfold getAdjacencyMatrix. fold vs.
  assert (∀ v, v ∈ vs → is_Some (map_get v (adjacencyList g))) as Hkeys.
  { intros v. unfold vs. rewrite array_sort_perm. apply map_get_keys. }
  set (size := length vs).
  destruct (for_range_inv
    (λ i matrix, square size matrix ∧
       ∀ i' j' vi vj, vs !! i' = Some vi → vs !! j' = Some vj →
         cell matrix i' j' = Some (if decide (i' < i) then adjacent g vi vj else 0))
    (λ i, for_range 0 size (matrix_cell g vs i)) size 0
    (replicate size (replicate size 0))) as (matrix & -> & Hsq & Hcells).
  - split.
    + split; [by rewrite length_replicate|].
      apply Forall_replicate, length_replicate.
    + intros i' j' vi vj Hvi%lookup_lt_Some Hvj%lookup_lt_Some.
      rewrite cell_replicate by done. by rewrite decide_False by lia.
  - intros i matrix Hi [Hsq Hcells].
    destruct (for_range_inv
      (λ j matrix, square size matrix ∧
         ∀ i' j' vi vj, vs !! i' = Some vi → vs !! j' = Some vj →
           cell matrix i' j' =
             Some (if decide (i' < i ∨ (i' = i ∧ j' < j)) then adjacent g vi vj else 0))
      (matrix_cell g vs i) size 0 matrix) as (matrix' & -> & Hsq' & Hcells').
    + split; [done|]. intros i' j' vi vj Hvi Hvj.
      rewrite (Hcells i' j' vi vj) by done. f_equal.
      repeat case_decide; try done; lia.
    + intros j matrix1 Hj [Hsq1 Hcells1].
      destruct (matrix_cell_step g vs i j matrix1) as (matrix2 & ? & ? & ?);
        try done; try (unfold size in *; lia).
      by exists matrix2.
    + exists matrix'. split; [done|]. split; [done|].
      intros i' j' vi vj Hvi Hvj. rewrite (Hcells' i' j' vi vj) by done. f_equal.
      apply lookup_lt_Some in Hvj. fold size in Hvj.
      repeat case_decide; try done; lia.
  - simpl. exists matrix. split; [done|]. split; [done|].
    intros i j vi vj Hvi Hvj. rewrite (Hcells i j vi vj) by done.
    apply lookup_lt_Some in Hvi. fold size in Hvi. by rewrite decide_True by lia.
Qed.

(** C3. [getAdjacencyMatrix()] returns (it never throws, and leaves the
    graph as it was) the vertex identifiers, all of them, in ascending order
    of the default comparison of [sort()], which compares their strings, and
    a square matrix whose side is the vertex count and whose cell
    [[i][j]] is 1 if vertex [j] is in the neighbour sequence of vertex [i]
    and 0 otherwise. *)
Theorem getAdjacencyMatrix_sorted_square g :
  ∃ matrix vertices,
    getAdjacencyMatrix toString g = Some ((matrix, vertices), g) ∧
    vertices ≡ₚ map_keys (adjacencyList g) ∧
    StronglySorted (default_le toString) vertices ∧
    length vertices = length (adjacencyList g) ∧
    length matrix = length vertices ∧
    Forall (λ row, length row = length vertices) matrix ∧
    ∀ i j vi vj, vertices !! i = Some vi → vertices !! j = Some vj →
      cell matrix i j = Some (if bool_decide (vj ∈ neighbors_of vi g) then 1 else 0).
Proof.
  destruct (getAdjacencyMatrix_cells g) as (matrix & Hrun & [Hlen Hrows] & Hcells).
  eexists matrix, _. split; [exact Hrun|].
  split_and!; try done.
  - apply array_sort_perm.
  - apply array_sort_sorted.
  - rewrite array_sort_perm. unfold map_keys. by rewrite length_fmap.
Qed.

(** C4. For every pair of indices [(i, j)] into the vertex sequence that
    [getAdjacencyMatrix()] returns, [matrix[i][j]] is 1 if and only if
    [vertices[j]] is in the adjacency sequence the map holds for
    [vertices[i]]. *)
Theorem matrix_list_consistency g :
  ∃ matrix vertices,
    getAdjacencyMatrix toString g = Some ((matrix, vertices), g) ∧
    ∀ i j, i < length vertices → j < length vertices →
      ∃ vi vj arr,
        vertices !! i = Some vi ∧ vertices !! j = Some vj ∧
        map_get vi (adjacencyList g) = Some arr ∧
        (cell matrix i j = Some 1 ↔ vj ∈ arr).
Proof.
  destruct (getAdjacencyMatrix_cells g) as (matrix & Hrun & _ & Hcells).
  eexists matrix, _. split; [exact Hrun|]. intros i j Hi Hj.
  destruct (lookup_lt_is_Some_2 _ i Hi) as [vi Hvi].
  destruct (lookup_lt_is_Some_2 _ j Hj) as [vj Hvj].
  assert (is_Some (map_get vi (adjacencyList g))) as [arr Harr].
  { apply map_get_keys. rewrite <-(array_sort_perm (map_keys _)).
    by eapply list_elem_of_lookup_2. }
  exists vi, vj, arr. split_and!; try done.
  rewrite (Hcells i j vi vj) by done. unfold adjacent, includes, neighbors_of.
  rewrite Harr. case_bool_decide; naive_solver.
Qed.

End ExportFacts.

(** * The demo graphs, run *)

Example path_graph_built : Demo.path_graph = Some Demo.path_graph_map.
Proof. vm_compute. reflexivity. Qed.

Example path_graph_is_built : built Demo.path_graph_map.
Proof.
  pose proof path_graph_built as Hrun. unfold Demo.path_graph in Hrun.
  destruct (addEdge "a" "b" false new_Graph) as [g1|] eqn:H1; [|done].
  simpl in Hrun.
  destruct (addEdge "b" "c" false g1) as [g2|] eqn:H2; [|done]. simpl in Hrun.
  destruct (addEdge "c" "d" false g2) as [g3|] eqn:H3; [|done]. simpl in Hrun.
  injection Hrun as <-. apply built_addVertex.
  eapply built_addEdge; [|exact H3].
  eapply built_addEdge; [|exact H2].
  eapply built_addEdge; [|exact H1].
  constructor.
Qed.

Example path_graph_bfs :
  bfs "a" Demo.path_graph_map = Some (["a"; "b"; "c"; "d"], Demo.path_graph_map).
Proof. vm_compute. reflexivity. Qed.

Example path_graph_dfs :
  dfs "a" Demo.path_graph_map = Some (["a"; "b"; "c"; "d"], Demo.path_graph_map).
Proof. vm_compute. reflexivity. Qed.

Example separate_vertex_bfs :
  bfs "e" Demo.path_graph_map = Some (["e"], Demo.path_graph_map).
Proof. vm_compute. reflexivity. Qed.

Example diamond_bfs :
  bfs "s" Demo.diamond = Some (["s"; "x"; "y"; "z"; "w"; "q"], Demo.diamond).
Proof. vm_compute. reflexivity. Qed.

Example diamond_dfs :
  dfs "s" Demo.diamond = Some (["s"; "x"; "z"; "q"; "w"; "y"], Demo.diamond).
Proof. vm_compute. reflexivity. Qed.

Example diamond_heap_graph : graph_of Demo.diamond_heap = Demo.diamond.
Proof. vm_compute. reflexivity. Qed.

Example diamond_heap_bfs :
  bfs_ref 20 "s" Demo.diamond_heap =
    Some (["s"; "x"; "y"; "z"; "w"; "q"],
          {| heap_map := heap_map Demo.diamond_heap;
             heap_arrays :=
               heap_arrays Demo.diamond_heap ++
                 [["s"; "x"; "y"; "z"; "w"; "q"]; [];
                  ["s"; "x"; "y"; "z"; "w"; "q"]; []; []] |}).
Proof. vm_compute. reflexivity. Qed.

Example diamond_heap_dfs :
  dfs_ref 20 "s" Demo.diamond_heap =
    Some (["s"; "x"; "z"; "q"; "w"; "y"],
          {| heap_map := heap_map Demo.diamond_heap;
             heap_arrays :=
               heap_arrays Demo.diamond_heap ++
                 [["s"; "x"; "z"; "q"; "w"; "y"];
                  ["s"; "x"; "z"; "q"; "w"; "y"]; []; []] |}).
Proof. vm_compute. reflexivity. Qed.

Example diamond_arrivals :
  arrivals Demo.diamond "s" ["s"; "x"; "y"; "z"; "w"; "q"] =
    ["s"; "x"; "y"; "x"; "z"; "w"; "z"; "s"; "q"].
Proof. vm_compute. reflexivity. Qed.

Example diamond_first_arrivals :
  first_occurrences ["s"; "x"; "y"; "x"; "z"; "w"; "z"; "s"; "q"] =
    ["s"; "x"; "y"; "z"; "w"; "q"].
Proof. vm_compute. reflexivity. Qed.

Example path_graph_text :
  (getAdjacencyList id Demo.path_graph_map).1 =
    "a: [b]" +:+ newline +:+ "b: [a, c]" +:+ newline +:+
    "c: [b, d]" +:+ newline +:+ "d: [c]" +:+ newline +:+ "e: []" +:+ newline.
Proof. vm_compute. reflexivity. Qed.

Example diamond_matrix :
  getAdjacencyMatrix id Demo.diamond =
    Some (([[0; 1; 1; 0]; [0; 0; 0; 1]; [1; 0; 0; 1]; [0; 0; 0; 0]],
           ["s"; "x"; "y"; "z"]), Demo.diamond).
Proof. vm_compute. reflexivity. Qed.

(** Numbers as identifiers are compared by [sort()] as the strings they
    convert to. *)
Example numbers_sort_as_strings :
  array_sort (pretty : Z → string) [1; 2; 10; 33; -3]%Z = [-3; 1; 10; 2; 33]%Z.
Proof. vm_compute. reflexivity. Qed.

(** The neighbour [q] of the diamond has no entry of its own. *)
Lemma bfs_absent_start_witness :
  map_get "q" (adjacencyList Demo.diamond) = None ∧
  bfs "q" Demo.diamond = Some (["q"], Demo.diamond).
Proof. split; [reflexivity|apply bfs_absent_start; reflexivity]. Defined.

(** The store of the diamond: the traversals run on it, and leave it. *)
Lemma traversals_leave_graph_witness :
  heap_wf Demo.diamond_heap ∧
  ((∃ (fuel : nat) r h',
      bfs_ref fuel "s" Demo.diamond_heap = Some (r, h') ∧
      bfs "s" (graph_of Demo.diamond_heap) =
        Some (r, graph_of Demo.diamond_heap)) ∧
   (∃ (fuel : nat) r h',
      dfs_ref fuel "s" Demo.diamond_heap = Some (r, h') ∧
      dfs "s" (graph_of Demo.diamond_heap) =
        Some (r, graph_of Demo.diamond_heap)) ∧
   ∀ (fuel : nat) r h',
     bfs_ref fuel "s" Demo.diamond_heap = Some (r, h') ∨
     dfs_ref fuel "s" Demo.diamond_heap = Some (r, h') →
     heap_map h' = heap_map Demo.diamond_heap ∧
     (∀ ref : nat, ref < length (heap_arrays Demo.diamond_heap) →
        heap_arrays h' !! ref = heap_arrays Demo.diamond_heap !! ref) ∧
     graph_of h' = graph_of Demo.diamond_heap).
Proof.
  assert (heap_wf Demo.diamond_heap) as Hwf
    by (unfold heap_wf; simpl; repeat constructor).
  split; [exact Hwf|]. apply traversals_leave_graph. exact Hwf.
Defined.

(** * More properties of the graph class *)

Section GraphMore.
Context {ident : Type} `{EqDecision ident}.
Implicit Types (this g : Graph ident) (v w a b start : ident).
Implicit Types (l visited queue result : list ident).

Lemma occurrences_from_prefix seen l : seen `prefix_of` occurrences_from seen l.
Proof.
  revert seen. induction l as [|x l IH]; intros seen; simpl; [done|].
  etrans; [|apply IH]. unfold set_add.
  destruct (set_has x seen); [done|]. by apply prefix_app_r.
Qed.

Lemma elem_of_occurrences_from seen l x :
  x ∈ occurrences_from seen l ↔ x ∈ seen ∨ x ∈ l.
Proof.
  revert seen. induction l as [|y l IH]; intros seen; simpl.
  - rewrite elem_of_nil. naive_solver.
  - rewrite IH, elem_of_cons. unfold set_add.
    destruct (set_has y seen) eqn:Hy.
    + apply set_has_true in Hy. naive_solver.
    + rewrite elem_of_app, list_elem_of_singleton. naive_solver.
Qed.

(** What a breadth-first run returns. *)
Lemma bfs_result g start :
  ∃ r,
    bfs start g = Some (r, g) ∧ NoDup r ∧
    (∀ v, v ∈ r ↔ reachable g start v) ∧
    first_occurrences (arrivals g start r) = r.
Proof.
  destruct (bfs_run g start) as (done & Hrun & Hocc & Hl).
  exists done.*1. split_and!; [done| | |done].
  - rewrite <-Hocc. apply occurrences_from_NoDup. constructor.
  - intros v. split.
    + intros ([v' d] & -> & Hin)%list_elem_of_fmap.
      eapply rtc_nsteps_2, (layers_path _ _ _ _ Hl). by rewrite app_nil_r.
    + revert v. apply rtc_ind_r.
      * by destruct (layers_start _ _ _ _ Hl) as [?|?%elem_of_nil].
      * intros u w _ He ([u' d] & -> & Hin)%list_elem_of_fmap.
        by destruct (layers_next _ _ _ _ Hl _ _ _ Hin He) as [?|?%elem_of_nil].
Qed.

(** What a depth-first run returns. *)
Lemma dfs_result g start :
  ∃ r,
    dfs start g = Some (r, g) ∧ NoDup r ∧
    (∀ v, v ∈ r ↔ reachable g start v) ∧
    preorder g [] start r.
Proof.
  destruct (dfs_run g start) as (out & Hrun & Hpre & Hnd & _ & Hroot & Hcl).
  exists (start :: out). split_and!; [done..| |done]. intros v. split.
  - intros Hv. by destruct (Hroot v Hv) as (r & ->%list_elem_of_singleton & ?).
  - revert v. apply rtc_ind_r; [left|]. intros u w _ He Hu. by apply (Hcl u).
Qed.

(** X1. The result of [bfs(start)] is never empty: it begins with [start],
    which does not come again. *)
Theorem bfs_begins_with_start g start :
  ∃ rest, bfs start g = Some (start :: rest, g) ∧ start ∉ rest.
Proof.
  destruct (bfs_result g start) as (r & Hrun & Hnd & _ & Hocc).
  assert ([start] `prefix_of` r) as [rest ->].
  { rewrite <-Hocc. apply (occurrences_from_prefix [start]). }
  exists rest. split; [done|]. by apply NoDup_cons in Hnd as [? _].
Qed.

(** X2. [bfs(start)] and [dfs(start)] visit the same vertices: their results
    are permutations of each other. *)
Theorem bfs_dfs_same_vertices g start :
  ∃ rb rd,
    bfs start g = Some (rb, g) ∧ dfs start g = Some (rd, g) ∧
    (rb ≡ₚ rd) ∧ length rb = length rd.
Proof.
  destruct (bfs_result g start) as (rb & Hb & Hndb & Hmb & _).
  destruct (dfs_result g start) as (rd & Hd & Hndd & Hmd & _).
  exists rb, rd. split; [done|]. split; [done|].
  assert (rb ≡ₚ rd) as Hperm.
  { apply NoDup_Permutation; [done..|]. intros v. by rewrite Hmb, Hmd. }
  split; [done|]. by rewrite Hperm.
Qed.

Lemma reachable_inv g start v :
  reachable g start v → v = start ∨ v ∈ all_neighbors g.
Proof.
  intros [->|(u & _ & He)]%rtc_inv_r; [by left|].
  right. by eapply edge_all_neighbors.
Qed.

(** X3. A vertex that is in no neighbour sequence is visited by a traversal
    only as its start. *)
Theorem isolated_vertex_not_visited g start v :
  v ∉ all_neighbors g → v ≠ start →
  ∃ rb rd,
    bfs start g = Some (rb, g) ∧ dfs start g = Some (rd, g) ∧
    (v ∉ rb) ∧ (v ∉ rd).
Proof.
  intros Hiso Hne.
  destruct (bfs_result g start) as (rb & Hb & _ & Hmb & _).
  destruct (dfs_result g start) as (rd & Hd & _ & Hmd & _).
  exists rb, rd. split; [done|]. split; [done|].
  rewrite Hmb, Hmd. split; intros [?|?]%reachable_inv; done.
Qed.

(** **** Insertion, entry by entry *)

Lemma addVertex_entries v w g :
  is_Some (map_get w (adjacencyList (addVertex v g))) ↔
  is_Some (map_get w (adjacencyList g)) ∨ w = v.
Proof.
  rewrite addVertex_get. destruct (map_get w (adjacencyList g)) as [arr|].
  - split; [left|]; by eexists.
  - case_decide; subst.
    + split; [by right|by eexists].
    + split; [by intros [? ?]|]. intros [[? ?]|?]; done.
Qed.

Lemma addEdge_total a b (directed : bool) g :
  ∃ g', addEdge a b directed g = Some g'.
Proof. destruct (addEdge_run a b directed g) as (g' & ? & _). by exists g'. Qed.

Lemma addEdge_entries a b (directed : bool) g g' w :
  addEdge a b directed g = Some g' →
  is_Some (map_get w (adjacencyList g')) ↔
  is_Some (map_get w (adjacencyList g)) ∨ w = a ∨ w = b.
Proof.
  intros Hrun. destruct (addEdge_run a b directed g) as (g1 & Hrun1 & _ & Hget).
  assert (g1 = g') as -> by congruence.
  rewrite Hget, fmap_is_Some, !addVertex_entries. naive_solver.
Qed.

Lemma addEdge_keys a b (directed : bool) g g' :
  addEdge a b directed g = Some g' →
  map_keys (adjacencyList g') =
    map_keys (adjacencyList (addVertex b (addVertex a g))).
Proof.
  intros Hrun. destruct (addEdge_run a b directed g) as (g1 & Hrun1 & Hkeys & _).
  by assert (g1 = g') as -> by congruence.
Qed.

Lemma addEdge_neighbors a b (directed : bool) g g' v :
  addEdge a b directed g = Some g' →
  neighbors_of v g' =
    neighbors_of v g ++ (if decide (a = v) then [b] else [])
                     ++ (if decide (b = v ∧ directed = false) then [a] else []).
Proof.
  intros Hrun. destruct (addEdge_run a b directed g) as (g1 & Hrun1 & _ & Hget).
  assert (g1 = g') as -> by congruence.
  destruct (addVertex_twice_entries a b g) as [Ha Hb].
  rewrite <-(addVertex_neighbors a v g).
  rewrite <-(addVertex_neighbors b v (addVertex a g)).
  unfold neighbors_of. rewrite Hget.
  destruct (map_get v (adjacencyList (addVertex b (addVertex a g)))) eqn:Hv;
    simpl; [done|].
  rewrite decide_False by (intros ->; destruct Ha; congruence).
  by rewrite decide_False by (intros [-> _]; destruct Hb; congruence).
Qed.

Lemma addEdge_edges a b (directed : bool) g g' u w :
  addEdge a b directed g = Some g' →
  edge g' u w ↔
  edge g u w ∨ (u = a ∧ w = b) ∨ (directed = false ∧ u = b ∧ w = a).
Proof.
  intros Hrun. unfold edge. rewrite (addEdge_neighbors _ _ _ _ _ _ Hrun).
  rewrite !elem_of_app.
  repeat case_decide; rewrite ?list_elem_of_singleton, ?elem_of_nil; naive_solver.
Qed.

Lemma addVertex_edges v g u w : edge (addVertex v g) u w ↔ edge g u w.
Proof. unfold edge. by rewrite addVertex_neighbors. Qed.

Lemma built_closed g : built g → closed g.
Proof.
  induction 1 as [|v g Hg IH|a b directed g g' Hg IH Hrun]; intros u w.
  - by intros ?%elem_of_nil.
  - rewrite addVertex_edges, addVertex_entries. intros He. left. by eapply IH.
  - rewrite (addEdge_edges _ _ _ _ _ _ _ Hrun), (addEdge_entries _ _ _ _ _ _ Hrun).
    intros [He|[[_ ->]|(_ & _ & ->)]]; [left; by eapply IH|auto..].
Qed.

Lemma closed_reachable g start v :
  closed g → is_Some (map_get start (adjacencyList g)) →
  reachable g start v → is_Some (map_get v (adjacencyList g)).
Proof.
  intros Hcl Hstart. revert v. apply rtc_ind_r; [done|].
  intros u w _ He _. by eapply Hcl.
Qed.

(** X4. In a graph built with the constructor, [addVertex] and [addEdge],
    every neighbour has an entry of its own: [addEdge] gives both its
    vertices one. *)
Theorem built_neighbors_have_entries g u w :
  built g → w ∈ neighbors_of u g → is_Some (map_get w (adjacencyList g)).
Proof. intros Hb He. by eapply (built_closed g Hb). Qed.

(** X5. In a built graph, a traversal from a vertex that has an entry visits
    only vertices that have one, so it returns at most as many vertices as
    the map has keys. *)
Theorem traversal_within_vertices g start :
  built g → is_Some (map_get start (adjacencyList g)) →
  ∃ rb rd,
    bfs start g = Some (rb, g) ∧ dfs start g = Some (rd, g) ∧
    (∀ v, v ∈ rb ∨ v ∈ rd → v ∈ map_keys (adjacencyList g)) ∧
    length rb ≤ length (map_keys (adjacencyList g)) ∧
    length rd ≤ length (map_keys (adjacencyList g)).
Proof.
  intros Hb Hstart. apply built_closed in Hb.
  destruct (bfs_result g start) as (rb & Hrb & Hndb & Hmb & _).
  destruct (dfs_result g start) as (rd & Hrd & Hndd & Hmd & _).
  assert (∀ v, v ∈ rb ∨ v ∈ rd → v ∈ map_keys (adjacencyList g)) as Hin.
  { intros v Hv. apply map_get_keys, (closed_reachable g start); [done..|].
    destruct Hv as [Hv|Hv]; [by apply Hmb|by apply Hmd]. }
  exists rb, rd. split_and!; [done..| |].
  - apply submseteq_length, NoDup_submseteq; [done|]. intros v Hv. apply Hin. by left.
  - apply submseteq_length, NoDup_submseteq; [done|]. intros v Hv. apply Hin. by right.
Qed.

(** X6. Insertion never removes: [addVertex] leaves every neighbour
    sequence as it is and [addEdge] only appends to them, and both keep the
    keys in their order, new ones going last. *)
Theorem insertion_never_removes v a b (directed : bool) g :
  (map_keys (adjacencyList g) `prefix_of` map_keys (adjacencyList (addVertex v g)) ∧
   ∀ u, neighbors_of u (addVertex v g) = neighbors_of u g) ∧
  ∃ g', addEdge a b directed g = Some g' ∧
    map_keys (adjacencyList g) `prefix_of` map_keys (adjacencyList g') ∧
    ∀ u, neighbors_of u g `prefix_of` neighbors_of u g'.
Proof.
  split.
  - split; [|intros u; apply addVertex_neighbors].
    rewrite addVertex_keys. by apply prefix_app_r.
  - destruct (addEdge_total a b directed g) as [g' Hrun]. exists g'.
    split; [done|]. split.
    + rewrite (addEdge_keys _ _ _ _ _ Hrun), !addVertex_keys, <-(assoc_L (++)).
      by apply prefix_app_r.
    + intros u. rewrite (addEdge_neighbors _ _ _ _ _ _ Hrun). by apply prefix_app_r.
Qed.

Lemma reachable_mono g g' start v :
  (∀ u w, edge g u w → edge g' u w) →
  reachable g start v → reachable g' start v.
Proof.
  intros Hsub. revert v. apply rtc_ind_r; [constructor|].
  intros u w _ He Hu. eapply rtc_r; [done|]. by apply Hsub.
Qed.

(** X7. Adding an edge never makes a traversal lose a vertex: what
    [bfs(start)] and [dfs(start)] visited before [addEdge], they visit
    after it. *)
Theorem addEdge_traversals_grow a b (directed : bool) g start :
  ∃ g' rb rb' rd rd',
    addEdge a b directed g = Some g' ∧
    bfs start g = Some (rb, g) ∧ bfs start g' = Some (rb', g') ∧
    dfs start g = Some (rd, g) ∧ dfs start g' = Some (rd', g') ∧
    rb ⊆ rb' ∧ rd ⊆ rd'.
Proof.
  destruct (addEdge_total a b directed g) as [g' Hrun].
  destruct (bfs_result g start) as (rb & Hrb & _ & Hmb & _).
  destruct (bfs_result g' start) as (rb' & Hrb' & _ & Hmb' & _).
  destruct (dfs_result g start) as (rd & Hrd & _ & Hmd & _).
  destruct (dfs_result g' start) as (rd' & Hrd' & _ & Hmd' & _).
  exists g', rb, rb', rd, rd'. split_and!; try done.
  - intros v. rewrite Hmb, Hmb'. apply reachable_mono.
    intros u w He. rewrite (addEdge_edges _ _ _ _ _ _ _ Hrun). by left.
  - intros v. rewrite Hmd, Hmd'. apply reachable_mono.
    intros u w He. rewrite (addEdge_edges _ _ _ _ _ _ _ Hrun). by left.
Qed.

(** X8. An edge makes its target reachable: after [addEdge(a, b, directed)]
    both traversals from [a] visit [b], and when the edge is undirected
    both traversals from [b] visit [a]. *)
Theorem addEdge_reaches a b (directed : bool) g :
  ∃ g' rb rd,
    addEdge a b directed g = Some g' ∧
    bfs a g' = Some (rb, g') ∧ dfs a g' = Some (rd, g') ∧
    b ∈ rb ∧ b ∈ rd ∧
    (directed = false →
     ∃ rb' rd',
       bfs b g' = Some (rb', g') ∧ dfs b g' = Some (rd', g') ∧
       a ∈ rb' ∧ a ∈ rd').
Proof.
  destruct (addEdge_total a b directed g) as [g' Hrun].
  destruct (bfs_result g' a) as (rb & Hrb & _ & Hmb & _).
  destruct (dfs_result g' a) as (rd & Hrd & _ & Hmd & _).
  exists g', rb, rd. split_and!; try done.
  - apply Hmb, rtc_once, (addEdge_edges _ _ _ _ _ _ _ Hrun). auto.
  - apply Hmd, rtc_once, (addEdge_edges _ _ _ _ _ _ _ Hrun). auto.
  - intros ->.
    destruct (bfs_result g' b) as (rb' & Hrb' & _ & Hmb' & _).
    destruct (dfs_result g' b) as (rd' & Hrd' & _ & Hmd' & _).
    exists rb', rd'. split_and!; try done.
    + apply Hmb', rtc_once, (addEdge_edges _ _ _ _ _ _ _ Hrun). auto.
    + apply Hmd', rtc_once, (addEdge_edges _ _ _ _ _ _ _ Hrun). auto.
Qed.

Lemma undirected_edge_sym g u w :
  built_undirected g → edge g u w → edge g w u.
Proof.
  intros Hb. revert u w.
  induction Hb as [|v g Hg IH|a b g g' Hg IH Hrun]; intros u w.
  - by intros ?%elem_of_nil.
  - rewrite !addVertex_edges. apply IH.
  - rewrite !(addEdge_edges _ _ _ _ _ _ _ Hrun). naive_solver.
Qed.

Lemma undirected_reachable_sym g u w :
  built_undirected g → reachable g u w → reachable g w u.
Proof.
  intros Hb. revert w. apply rtc_ind_r; [constructor|].
  intros v w _ He Hv. eapply rtc_l; [|done]. by apply undirected_edge_sym.
Qed.

(** X9. In a graph built with undirected edges only, neighbourhood is
    mutual, and so is being visited: [bfs(u)] visits [w] exactly when
    [bfs(w)] visits [u], and likewise for [dfs]. *)
Theorem undirected_traversals_mutual g u w :
  built_undirected g →
  (w ∈ neighbors_of u g ↔ u ∈ neighbors_of w g) ∧
  ∃ rbu rbw rdu rdw,
    bfs u g = Some (rbu, g) ∧ bfs w g = Some (rbw, g) ∧
    dfs u g = Some (rdu, g) ∧ dfs w g = Some (rdw, g) ∧
    (w ∈ rbu ↔ u ∈ rbw) ∧ (w ∈ rdu ↔ u ∈ rdw).
Proof.
  intros Hb. split; [split; by apply undirected_edge_sym|].
  destruct (bfs_result g u) as (rbu & Hrbu & _ & Hmbu & _).
  destruct (bfs_result g w) as (rbw & Hrbw & _ & Hmbw & _).
  destruct (dfs_result g u) as (rdu & Hrdu & _ & Hmdu & _).
  destruct (dfs_result g w) as (rdw & Hrdw & _ & Hmdw & _).
  exists rbu, rbw, rdu, rdw. split_and!; try done.
  - rewrite Hmbu, Hmbw. split; by apply undirected_reachable_sym.
  - rewrite Hmdu, Hmdw. split; by apply undirected_reachable_sym.
Qed.

(** **** The breadth-first order is determined *)

Lemma arrivals_app g start l1 l2 :
  arrivals g start (l1 ++ l2) =
    arrivals g start l1 ++ (l2 ≫= λ u, neighbors_of u g).
Proof. unfold arrivals. by rewrite bind_app. Qed.

(** A sequence of reachable vertices that is in the order of its own first
    arrivals is what the loop computes. *)
Lemma bfs_determined g start r :
  first_occurrences (arrivals g start r) = r →
  (∀ v, v ∈ r → reachable g start v) →
  bfs start g = Some (r, g).
Proof.
  intros Hfix Hreach.
  destruct (bfs_loop_inv g
    (λ visited queue result,
       bfs_inv g start visited queue result ∧ result `prefix_of` r))
    with (fuel := 2 + edge_count g) (visited := @nil ident)
         (queue := [start]) (result := @nil ident)
    as (visited & r' & Hrun & Hinv & Hpre).
  - intros visited v queue result [Hinv Hpre] Hv.
    split; [by eapply bfs_inv_skip|done].
  - intros visited v queue result [Hinv Hpre] Hv.
    split; [by apply bfs_inv_visit|].
    destruct (Hinv) as (-> & Hocc & _). destruct Hpre as [s ->].
    rewrite <-Hfix. unfold first_occurrences in *.
    rewrite arrivals_app, occurrences_from_app, Hocc. simpl.
    rewrite set_add_new by done.
    etrans; [apply (occurrences_from_prefix _ queue)|].
    apply occurrences_from_prefix.
  - split; [|by apply prefix_nil]. split; [done|]. split; [done|].
    exists [], [(start, 0)]. split_and!; [done..|apply layers_init].
  - pose proof (unexplored_edge_count g []). simpl. lia.
  - unfold bfs, bfs_within. rewrite Hrun. do 2 f_equal.
    destruct Hinv as (-> & Hocc & done & queued & <- & Hq & Hl).
    apply fmap_nil_inv in Hq as ->. destruct Hpre as [s ->].
    assert (NoDup (done.*1 ++ s)) as Hnd.
    { rewrite <-Hfix. apply occurrences_from_NoDup. constructor. }
    apply NoDup_app in Hnd as (_ & Hdisj & _).
    destruct s as [|x s]; [by rewrite app_nil_r|]. exfalso.
    apply (Hdisj x); [|left].
    assert (reachable g start x) as Hx by (apply Hreach; set_solver).
    clear Hreach Hfix Hdisj Hrun. revert x Hx. apply rtc_ind_r.
    + by destruct (layers_start _ _ _ _ Hl) as [?|?%elem_of_nil].
    + intros u w _ He ([u' d] & -> & Hin)%list_elem_of_fmap.
      by destruct (layers_next _ _ _ _ Hl _ _ _ Hin He) as [?|?%elem_of_nil].
Qed.

(** X10. The order of [bfs(start)] is determined by first arrival: [bfs]
    returns [r] exactly when [r] holds only vertices reachable from [start]
    and lists its own arrivals ([start], then the neighbours of its
    members, in turn), each at its first occurrence. *)
Theorem bfs_order_determined g start r :
  bfs start g = Some (r, g) ↔
  first_occurrences (arrivals g start r) = r ∧
  ∀ v, v ∈ r → reachable g start v.
Proof.
  split.
  - intros Hrun. destruct (bfs_result g start) as (r0 & Hr0 & _ & Hm & Hocc).
    assert (r0 = r) as -> by congruence.
    split; [done|]. intros v. apply Hm.
  - intros [Hocc Hreach]. by apply bfs_determined.
Qed.

(** **** Repeated neighbours *)

Lemma set_add_occurrences_from (x : ident) seen acc :
  occurrences_from seen (set_add x acc) = set_add x (occurrences_from seen acc).
Proof.
  unfold set_add at 1. destruct (set_has x acc) eqn:Hx.
  - apply set_has_true in Hx. rewrite set_add_old; [done|].
    apply elem_of_occurrences_from. by right.
  - by rewrite occurrences_from_app.
Qed.

Lemma occurrences_from_occurrences_from seen acc l :
  occurrences_from seen (occurrences_from acc l) =
    occurrences_from (occurrences_from seen acc) l.
Proof.
  revert acc. induction l as [|x l IH]; intros acc; simpl; [done|].
  by rewrite IH, set_add_occurrences_from.
Qed.

Lemma occurrences_from_first seen l :
  occurrences_from seen (first_occurrences l) = occurrences_from seen l.
Proof. apply occurrences_from_occurrences_from. Qed.

Lemma occurrences_from_bind_ext g g' seen r :
  same_first_neighbors g g' →
  occurrences_from seen (r ≫= λ u, neighbors_of u g') =
    occurrences_from seen (r ≫= λ u, neighbors_of u g).
Proof.
  intros Hsame. revert seen. induction r as [|x r IH]; intros seen; [done|].
  rewrite !bind_cons, !occurrences_from_app, IH. f_equal.
  by rewrite <-occurrences_from_first, Hsame, occurrences_from_first.
Qed.

Lemma same_first_edges g g' u w :
  same_first_neighbors g g' → edge g' u w ↔ edge g u w.
Proof.
  intros Hsame. unfold edge.
  pose proof (elem_of_occurrences_from [] (neighbors_of u g') w) as H1.
  pose proof (elem_of_occurrences_from [] (neighbors_of u g) w) as H2.
  fold (first_occurrences (neighbors_of u g')) in H1.
  fold (first_occurrences (neighbors_of u g)) in H2.
  rewrite Hsame in H1. rewrite elem_of_nil in H1, H2. naive_solver.
Qed.

Lemma bfs_same_first g g' start r :
  same_first_neighbors g g' →
  bfs start g = Some (r, g) → bfs start g' = Some (r, g').
Proof.
  intros Hsame Hrun.
  destruct (bfs_result g start) as (r0 & Hr0 & _ & Hm & Hocc).
  assert (r0 = r) as -> by congruence.
  apply bfs_determined.
  - rewrite <-Hocc at 2. unfold first_occurrences, arrivals. simpl.
    by apply occurrences_from_bind_ext.
  - intros v Hv%Hm. revert Hv. apply reachable_mono.
    intros u w. by rewrite (same_first_edges g g').
Qed.

(** The pre-order relations relate a visit to one output. *)
Lemma preorder_functional g :
  (∀ seen v o1, preorder g seen v o1 → ∀ o2, preorder g seen v o2 → o1 = o2) ∧
  (∀ seen ns o1, preorder_each g seen ns o1 →
     ∀ o2, preorder_each g seen ns o2 → o1 = o2).
Proof.
  apply preorder_mutual.
  - intros seen v out _ IH o2 H2. inversion H2; subst. f_equal. by apply IH.
  - intros seen o2 H2. by inversion H2.
  - intros seen n ns out Hn _ IH o2 H2. inversion H2; subst; [by apply IH|done].
  - intros seen n ns out1 out2 Hn _ IH1 _ IH2 o2 H2.
    inversion H2 as [| |? ? ? o1' o2' ? H1' H2']; subst; [done|].
    apply IH1 in H1' as <-. by apply IH2 in H2' as <-.
Qed.

(** Neighbours that have been visited can be left out of a visit. *)
Lemma preorder_each_filter g seen0 seen l out :
  seen0 ⊆ seen →
  preorder_each g seen l out ↔
  preorder_each g seen (filter (λ n, n ∉ seen0) l) out.
Proof.
  revert seen out. induction l as [|x l IH]; intros seen out Hsub; [done|].
  destruct (decide (x ∈ seen0)) as [Hx|Hx].
  - rewrite filter_cons_False by naive_solver. rewrite <-IH by done. split.
    + inversion 1; subst; [done|set_solver].
    + apply preorder_skip. set_solver.
  - rewrite filter_cons_True by done. split.
    + inversion 1; subst.
      * apply preorder_skip; [done|]. by apply IH.
      * apply preorder_descend; [done..|]. apply IH; [set_solver|done].
    + inversion 1; subst.
      * apply preorder_skip; [done|]. by apply IH.
      * apply preorder_descend; [done..|].
        eapply IH; [|done]. set_solver.
Qed.

Lemma occurrences_from_fresh seen l :
  (∀ x, x ∈ l → x ∉ seen) →
  occurrences_from seen l = seen ++ first_occurrences l.
Proof.
  unfold first_occurrences. induction l as [|x l IH] using rev_ind; intros Hl.
  - simpl. by rewrite app_nil_r.
  - rewrite !occurrences_from_app, IH by set_solver. simpl.
    destruct (decide (x ∈ occurrences_from [] l)) as [Hx|Hx].
    + rewrite !set_add_old; [done|done|set_solver].
    + rewrite !set_add_new; [by rewrite (assoc_L (++))|done|].
      rewrite elem_of_app. intros [?|?]; [|done]. apply (Hl x); set_solver.
Qed.

Lemma first_occurrences_cons (n : ident) l :
  first_occurrences (n :: l) = n :: first_occurrences (filter (λ x, x ∉ [n]) l).
Proof.
  unfold first_occurrences at 1. simpl.
  rewrite <-(occurrences_from_filter [n] [n]) by done.
  rewrite occurrences_from_fresh; [done|].
  by intros x [? _]%list_elem_of_filter.
Qed.

(** A visit of a neighbour list is the visit of its first occurrences. *)
Lemma preorder_each_first g k :
  ∀ ns seen out, length ns ≤ k →
    preorder_each g seen ns out ↔
    preorder_each g seen (first_occurrences ns) out.
Proof.
  induction k as [|k IH]; intros [|x ns] seen out Hlen;
    simpl in Hlen; [done|lia|done|].
  rewrite first_occurrences_cons.
  assert (∀ seen out,
    preorder_each g seen (filter (λ y, y ∉ [x]) ns) out ↔
    preorder_each g seen (first_occurrences (filter (λ y, y ∉ [x]) ns)) out)
    as IH'.
  { intros. apply IH. pose proof (length_filter (λ y, y ∉ [x]) ns). lia. }
  split.
  - inversion 1 as [| |? ? ? o1 o2 ? Hx]; subst.
    + apply preorder_skip; [done|]. apply IH'.
      apply preorder_each_filter; [set_solver|done].
    + apply preorder_descend; [done..|]. apply IH'.
      apply preorder_each_filter; [|done]. inversion Hx; set_solver.
  - inversion 1 as [| |? ? ? o1 o2 ? Hx Hrest]; subst.
    + apply preorder_skip; [done|].
      eapply (preorder_each_filter g [x]); [set_solver|]. by apply IH'.
    + apply preorder_descend; [done..|].
      eapply (preorder_each_filter g [x]); [|by apply IH'].
      inversion Hx; set_solver.
Qed.

Lemma preorder_same_first g g' :
  same_first_neighbors g g' →
  (∀ seen v out, preorder g seen v out → preorder g' seen v out) ∧
  (∀ seen ns out, preorder_each g seen ns out → preorder_each g' seen ns out).
Proof.
  intros Hsame. apply preorder_mutual.
  - intros seen v out _ IH. constructor.
    eapply preorder_each_first; [done|]. rewrite Hsame.
    by apply (proj1 (preorder_each_first g' _ (neighbors_of v g) _ _ (le_n _))).
  - constructor.
  - intros. by apply preorder_skip.
  - intros. by apply preorder_descend.
Qed.

Lemma dfs_same_first g g' start r :
  same_first_neighbors g g' →
  dfs start g = Some (r, g) → dfs start g' = Some (r, g').
Proof.
  intros Hsame Hrun.
  destruct (dfs_result g start) as (r0 & Hr0 & _ & _ & Hpre).
  assert (r0 = r) as -> by congruence.
  destruct (dfs_result g' start) as (r' & Hr' & _ & _ & Hpre').
  apply (preorder_same_first g g' Hsame) in Hpre.
  by rewrite (proj1 (preorder_functional g') _ _ _ Hpre _ Hpre').
Qed.

Lemma same_first_neighbors_sym g g' :
  same_first_neighbors g g' → same_first_neighbors g' g.
Proof. intros Hsame u. by rewrite Hsame. Qed.

(** X11. Repetitions in the neighbour arrays do not matter to the
    traversals: two graphs whose arrays agree once each neighbour is kept
    at its first occurrence only give the same [bfs] and the same [dfs]
    sequence from every start. *)
Theorem traversals_ignore_repetitions g g' start :
  same_first_neighbors g g' →
  ∃ rb rd,
    bfs start g = Some (rb, g) ∧ bfs start g' = Some (rb, g') ∧
    dfs start g = Some (rd, g) ∧ dfs start g' = Some (rd, g').
Proof.
  intros Hsame.
  destruct (bfs_result g start) as (rb & Hb & _).
  destruct (dfs_result g start) as (rd & Hd & _).
  exists rb, rd. split_and!; [done| |done|].
  - by apply (bfs_same_first g).
  - by apply (dfs_same_first g).
Qed.

(** X12. [addVertex] changes no traversal: whatever the vertex, and
    whether or not it was there, [bfs] and [dfs] return from every start
    the sequences they returned before. *)
Theorem addVertex_keeps_traversals v g start :
  ∃ rb rd,
    bfs start g = Some (rb, g) ∧
    bfs start (addVertex v g) = Some (rb, addVertex v g) ∧
    dfs start g = Some (rd, g) ∧
    dfs start (addVertex v g) = Some (rd, addVertex v g).
Proof.
  assert (same_first_neighbors g (addVertex v g)) as Hsame.
  { intros u. by rewrite addVertex_neighbors. }
  destruct (bfs_result g start) as (rb & Hb & _).
  destruct (dfs_result g start) as (rd & Hd & _).
  exists rb, rd. split_and!; [done| |done|].
  - by apply (bfs_same_first g).
  - by apply (dfs_same_first g).
Qed.

Lemma first_occurrences_snoc_old l (x : ident) :
  x ∈ l → first_occurrences (l ++ [x]) = first_occurrences l.
Proof.
  intros Hx. unfold first_occurrences. rewrite occurrences_from_app. simpl.
  apply set_add_old. apply elem_of_occurrences_from. by right.
Qed.

(** X13. Adding an edge that is already there changes no traversal: when
    [v2] is among the neighbours of [v1] (and, for an undirected edge, [v1]
    among those of [v2]), [bfs] and [dfs] return from every start, after
    [addEdge(v1, v2, directed)], what they returned before. *)
Theorem addEdge_again_keeps_traversals a b (directed : bool) g start :
  edge g a b →
  (directed = false → edge g b a) →
  ∃ g' rb rd,
    addEdge a b directed g = Some g' ∧
    bfs start g = Some (rb, g) ∧ bfs start g' = Some (rb, g') ∧
    dfs start g = Some (rd, g) ∧ dfs start g' = Some (rd, g').
Proof.
  intros Hab Hba. destruct (addEdge_total a b directed g) as [g' Hrun].
  assert (same_first_neighbors g g') as Hsame.
  { intros u. rewrite (addEdge_neighbors _ _ _ _ _ u Hrun).
    destruct (decide (a = u)) as [<-|]; destruct (decide (_ ∧ _)) as [[? ?]|];
      subst; rewrite ?app_nil_r, ?(assoc_L (++)); try done.
    - rewrite !first_occurrences_snoc_old; [done|done|].
      apply elem_of_app. by left.
    - by rewrite first_occurrences_snoc_old.
    - rewrite app_nil_r, first_occurrences_snoc_old; [done|by apply Hba]. }
  destruct (bfs_result g start) as (rb & Hb & _).
  destruct (dfs_result g start) as (rd & Hd & _).
  exists g', rb, rd. split_and!; [done|done| |done|].
  - by apply (bfs_same_first g).
  - by apply (dfs_same_first g).
Qed.

End GraphMore.

(** * More properties of the exports *)

Section ExportMore.
Context {ident : Type} `{EqDecision ident}.
Variable toString : ident → string.
Implicit Types (g : Graph ident) (u v w : ident).

Lemma cell_out_of_range n (matrix : list (list nat)) i j :
  square n matrix → n ≤ i ∨ n ≤ j → cell matrix i j = None.
Proof.
  intros [Hlen Hrows] Hij. unfold cell.
  destruct (matrix !! i) as [row|] eqn:Hrow; [simpl|done].
  apply lookup_ge_None_2.
  rewrite (proj1 (Forall_lookup _ _) Hrows _ _ Hrow).
  apply lookup_lt_Some in Hrow. lia.
Qed.

Lemma adjacent_edge g u w : adjacent g u w = 1 ↔ edge g u w.
Proof. unfold adjacent, includes, edge. by case_bool_decide. Qed.

Lemma vertices_keys g v :
  v ∈ array_sort toString (map_keys (adjacencyList g)) ↔
  is_Some (map_get v (adjacencyList g)).
Proof. by rewrite array_sort_perm, map_get_keys. Qed.

Lemma edge_source_entry g u w :
  edge g u w → is_Some (map_get u (adjacencyList g)).
Proof.
  unfold edge, neighbors_of. destruct (map_get u _); [by eexists|].
  by intros ?%elem_of_nil.
Qed.

(** X14. The matrix of a graph built with undirected edges only is
    symmetric: [matrix[i][j]] and [matrix[j][i]] are the same for all
    indices. *)
Theorem undirected_matrix_symmetric g :
  built_undirected g →
  ∃ matrix vertices,
    getAdjacencyMatrix toString g = Some ((matrix, vertices), g) ∧
    ∀ i j, cell matrix i j = cell matrix j i.
Proof.
  intros Hb.
  destruct (getAdjacencyMatrix_cells toString g) as (matrix & Hrun & Hsq & Hcells).
  eexists matrix, _. split; [exact Hrun|]. intros i j.
  set (vs := array_sort toString (map_keys (adjacencyList g))) in *.
  destruct (vs !! i) as [vi|] eqn:Hi; [destruct (vs !! j) as [vj|] eqn:Hj|].
  - rewrite (Hcells i j vi vj), (Hcells j i vj vi) by done. f_equal.
    unfold adjacent, includes.
    pose proof (undirected_edge_sym g vi vj Hb).
    pose proof (undirected_edge_sym g vj vi Hb). unfold edge in *.
    repeat case_bool_decide; naive_solver.
  - apply lookup_ge_None in Hj.
    rewrite !(cell_out_of_range _ _ _ _ Hsq); auto.
  - apply lookup_ge_None in Hi.
    rewrite !(cell_out_of_range _ _ _ _ Hsq); auto.
Qed.

(** X15. The matrix of a built graph loses no edge: when [w] is among the
    neighbours of [u], both have an index in the vertex sequence and the
    cell of the pair is 1. *)
Theorem matrix_shows_every_edge g u w :
  built g → edge g u w →
  ∃ matrix vertices i j,
    getAdjacencyMatrix toString g = Some ((matrix, vertices), g) ∧
    vertices !! i = Some u ∧ vertices !! j = Some w ∧
    cell matrix i j = Some 1.
Proof.
  intros Hb He.
  destruct (getAdjacencyMatrix_cells toString g) as (matrix & Hrun & Hsq & Hcells).
  assert (∃ i, array_sort toString (map_keys (adjacencyList g)) !! i = Some u)
    as [i Hi].
  { apply list_elem_of_lookup_1, vertices_keys. by eapply edge_source_entry. }
  assert (∃ j, array_sort toString (map_keys (adjacencyList g)) !! j = Some w)
    as [j Hj].
  { apply list_elem_of_lookup_1, vertices_keys. by eapply (built_closed g). }
  eexists matrix, _, i, j. split; [exact Hrun|]. split_and!; [done..|].
  rewrite (Hcells i j u w) by done. f_equal. by apply adjacent_edge.
Qed.

Lemma sum_adjacent g u (vs : list ident) :
  sum_list (adjacent g u <$> vs) =
    length (filter (λ v, v ∈ neighbors_of u g) vs).
Proof.
  induction vs as [|v vs IH]; [done|]. csimpl. rewrite IH.
  unfold adjacent, includes. case_bool_decide.
  - by rewrite filter_cons_True.
  - by rewrite filter_cons_False.
Qed.

(** X16. In the matrix of a built graph, the ones of a row count the
    distinct neighbours of its vertex, and every vertex has one row and one
    index only. *)
Theorem matrix_row_counts_neighbors g :
  built g →
  ∃ matrix vertices,
    getAdjacencyMatrix toString g = Some ((matrix, vertices), g) ∧
    NoDup vertices ∧
    ∀ i vi row, vertices !! i = Some vi → matrix !! i = Some row →
      sum_list row = length (first_occurrences (neighbors_of vi g)).
Proof.
  intros Hb.
  destruct (getAdjacencyMatrix_cells toString g)
    as (matrix & Hrun & [Hlen Hrows] & Hcells).
  set (vs := array_sort toString (map_keys (adjacencyList g))) in *.
  assert (NoDup vs) as Hnd.
  { unfold vs. rewrite array_sort_perm. by apply built_wf. }
  exists matrix, vs. split_and!; [done..|]. intros i vi row Hi Hrow.
  assert (row = adjacent g vi <$> vs) as ->.
  { apply list_eq. intros j. rewrite list_lookup_fmap.
    destruct (vs !! j) as [vj|] eqn:Hj; simpl.
    - rewrite <-(Hcells i j vi vj) by done. unfold cell. by rewrite Hrow.
    - apply lookup_ge_None_2.
      rewrite (proj1 (Forall_lookup _ _) Hrows _ _ Hrow).
      by apply lookup_ge_None. }
  rewrite sum_adjacent. apply Permutation_length, NoDup_Permutation.
  - by apply NoDup_filter.
  - apply occurrences_from_NoDup. constructor.
  - intros x. rewrite list_elem_of_filter. unfold first_occurrences.
    rewrite elem_of_occurrences_from, elem_of_nil. split; [naive_solver|].
    intros [[]|Hx]. split; [done|]. apply vertices_keys.
    by apply (built_closed g Hb vi).
Qed.

Lemma map_set_absent {V : Type} (k : ident) (x : V) (m : list (ident * V)) :
  map_get k m = None → map_set k x m = m ++ [(k, x)].
Proof.
  induction m as [|[k' x'] m IH]; simpl; [done|].
  case_decide; [done|]. intros Hk. by rewrite IH.
Qed.

Lemma getAdjacencyList_loop_app (l1 l2 : list (ident * list ident)) text :
  getAdjacencyList_loop toString (l1 ++ l2) text =
    getAdjacencyList_loop toString l2 (getAdjacencyList_loop toString l1 text).
Proof.
  revert text. induction l1 as [|[v ns] l1 IH]; intros text; [done|].
  simpl. by rewrite IH.
Qed.

(** X17. [addVertex] of a new vertex adds one line to the text of
    [getAdjacencyList()], at its end, and changes none of the others; of a
    vertex that is there, it leaves the text as it was. *)
Theorem addVertex_appends_line v g :
  (getAdjacencyList toString (addVertex v g)).1 =
    (getAdjacencyList toString g).1 +:+
      (if map_has v (adjacencyList g) then EmptyString
       else toString v +:+ ": []" +:+ newline).
Proof.
  unfold getAdjacencyList, addVertex, map_has. simpl.
  destruct (map_get v (adjacencyList g)) eqn:Hv; simpl.
  - by rewrite string_app_nil_r.
  - by rewrite map_set_absent, getAdjacencyList_loop_app by done.
Qed.

End ExportMore.

(** * Insertion on objects and on values *)

Section InsertionByReferenceFacts.
Context {ident : Type} `{EqDecision ident}.
Implicit Types (h : heap ident) (v a b k x : ident).

Lemma map_set_fmap {V W : Type} (f : V → W) k (y : V) (m : list (ident * V)) :
  prod_map id f <$> map_set k y m = map_set k (f y) (prod_map id f <$> m).
Proof.
  induction m as [|[k' y'] m IH]; csimpl; [done|].
  case_decide; csimpl; [done|]. by rewrite IH.
Qed.

(** With no array shared, a change of the array of [k] is a [set] of [k]. *)
Lemma fmap_update_separate {V : Type} (f f' : nat → V) (r : nat) (y : V) k
    (m : list (ident * nat)) :
  NoDup m.*2 → map_get k m = Some r →
  f' r = y → (∀ r', r' ≠ r → f' r' = f r') →
  prod_map id f' <$> m = map_set k y (prod_map id f <$> m).
Proof.
  intros Hnd Hk Hr Hother.
  induction m as [|[k' r'] m IH]; csimpl in *; [done|].
  apply NoDup_cons in Hnd as [Hr' Hnd]. case_decide; simplify_eq.
  - unfold prod_map at 1. simpl. f_equal.
    apply list_fmap_ext. intros i [k'' r''] Hi. unfold prod_map. simpl.
    f_equal. apply Hother. intros ->. apply Hr'.
    apply list_elem_of_fmap. exists (k'', r). split; [done|].
    by eapply list_elem_of_lookup_2.
  - f_equal; [|by apply IH].
    f_equal. apply Hother. intros ->. apply Hr'.
    apply list_elem_of_fmap. exists (k, r). split; [done|].
    by apply map_get_elem_of.
Qed.

Lemma heap_wf_get h k (r : nat) :
  heap_wf h → map_get k (heap_map h) = Some r → r < length (heap_arrays h).
Proof.
  intros Hwf Hk%map_get_elem_of.
  by apply (proj1 (Forall_forall _ _) Hwf (k, r)).
Qed.

Lemma heap_empty_separate : heap_separate (@heap_empty ident).
Proof. split; [by apply Forall_nil|constructor]. Qed.

Lemma addVertex_ref_graph v h :
  heap_wf h → graph_of (addVertex_ref v h) = addVertex v (graph_of h).
Proof.
  intros Hwf. unfold addVertex_ref, addVertex, map_has.
  rewrite map_get_graph_of.
  destruct (map_get v (heap_map h)) as [r|] eqn:Hv; simpl; [done|].
  unfold graph_of. simpl. f_equal. rewrite map_set_fmap. f_equal.
  - unfold heap_get. simpl. by rewrite lookup_app_r, Nat.sub_diag.
  - apply list_fmap_ext. intros i [k r] Hi. unfold prod_map. simpl. f_equal.
    unfold heap_get. simpl. rewrite lookup_app_l; [done|].
    apply (proj1 (Forall_lookup _ _) Hwf _ _ Hi).
Qed.

Lemma addVertex_ref_separate v h :
  heap_separate h → heap_separate (addVertex_ref v h).
Proof.
  intros [Hwf Hnd]. unfold addVertex_ref, map_has.
  destruct (map_get v (heap_map h)) as [r|] eqn:Hv; simpl; [done|].
  rewrite map_set_absent by done. split.
  - unfold heap_wf. simpl. rewrite length_app. simpl.
    apply Forall_app. split.
    + eapply Forall_impl; [exact Hwf|]. intros [k r] ?. simpl in *. lia.
    + apply Forall_singleton. simpl. lia.
  - simpl. rewrite fmap_app. apply NoDup_app. split_and!; [done| |].
    + intros r ([k r'] & -> & Hin)%list_elem_of_fmap.
      csimpl. intros Hr%list_elem_of_singleton.
      pose proof (proj1 (Forall_forall _ _) Hwf _ Hin). simpl in *. lia.
    + apply NoDup_singleton.
Qed.

Lemma push_ref_graph k x h :
  heap_separate h →
  graph_of <$> push_ref k x h = push_neighbor k x (graph_of h).
Proof.
  intros [Hwf Hnd]. unfold push_ref, push_neighbor.
  rewrite map_get_graph_of.
  destruct (map_get k (heap_map h)) as [r|] eqn:Hk; simpl; [|done].
  f_equal. unfold graph_of. simpl. f_equal.
  apply (fmap_update_separate _ _ r); [done|done| |].
  - apply heap_get_put_eq. by eapply heap_wf_get.
  - intros r' Hr'. by apply heap_get_put_ne.
Qed.

Lemma push_ref_separate k x h h' :
  heap_separate h → push_ref k x h = Some h' → heap_separate h'.
Proof.
  intros [Hwf Hnd]. unfold push_ref.
  destruct (map_get k (heap_map h)) as [r|]; intros; simplify_eq.
  split; [|done]. unfold heap_wf. simpl. by rewrite length_insert.
Qed.

Lemma addEdge_ref_graph a b (directed : bool) h :
  heap_separate h →
  graph_of <$> addEdge_ref a b directed h = addEdge a b directed (graph_of h) ∧
  ∀ h', addEdge_ref a b directed h = Some h' → heap_separate h'.
Proof.
  intros Hsep. unfold addEdge_ref, addEdge.
  pose proof (addVertex_ref_separate a h Hsep) as Hsep1.
  pose proof (addVertex_ref_separate b _ Hsep1) as Hsep2.
  rewrite <-(addVertex_ref_graph a h) by apply Hsep.
  rewrite <-(addVertex_ref_graph b) by apply Hsep1.
  rewrite <-(push_ref_graph a b) by done.
  destruct (push_ref a b _) as [h3|] eqn:H3; simpl; [|done].
  pose proof (push_ref_separate _ _ _ _ Hsep2 H3) as Hsep3.
  destruct directed; simpl.
  - split; [done|]. by intros ? [= <-].
  - rewrite <-(push_ref_graph b a) by done. split; [done|].
    intros h'. by apply push_ref_separate.
Qed.

(** X18. The class on values is the class on objects.  In a store where
    no two keys hold the same array, as in the empty one, [addVertex] and
    [addEdge] with their in-place [push] do to the graph the store holds
    what the methods on values do, [addEdge] does not throw, and no two
    keys hold the same array afterwards. *)
Theorem insertion_by_reference v a b (directed : bool) h :
  heap_separate h →
  (graph_of (addVertex_ref v h) = addVertex v (graph_of h) ∧
   heap_separate (addVertex_ref v h)) ∧
  ∃ h', addEdge_ref a b directed h = Some h' ∧
        addEdge a b directed (graph_of h) = Some (graph_of h') ∧
        heap_separate h'.
Proof.
  intros Hsep. split.
  - split; [apply addVertex_ref_graph, Hsep|by apply addVertex_ref_separate].
  - destruct (addEdge_ref_graph a b directed h Hsep) as [Hg Hs].
    destruct (addEdge_total a b directed (graph_of h)) as [g' Hg'].
    rewrite Hg' in Hg.
    destruct (addEdge_ref a b directed h) as [h'|]; simplify_eq/=.
    exists h'. split_and!; [done|done|by apply Hs].
Qed.

End InsertionByReferenceFacts.

(** Where two keys hold one array, a [push] under one is seen under the
    other, and the methods on values say otherwise. *)
Example shared_array_seen_twice :
  graph_of <$> addEdge_ref "a" "c" true Demo.shared_heap =
    Some {| adjacencyList := [("a", ["c"]); ("b", ["c"]); ("c", [])] |} ∧
  addEdge "a" "c" true (graph_of Demo.shared_heap) =
    Some {| adjacencyList := [("a", ["c"]); ("b", []); ("c", [])] |}.
Proof. by vm_compute. Qed.

(** * The order of discovery *)

Section Discovery.
Context {ident : Type} `{EqDecision ident}.
Implicit Types (g : Graph ident) (u v w x start : ident).

Lemma preorder_discovered g :
  (∀ seen v out, preorder g seen v out → discovered g v out) ∧
  (∀ seen ns out, preorder_each g seen ns out →
     ∀ k x, out !! k = Some x →
       x ∈ ns ∨ ∃ j u, j < k ∧ out !! j = Some u ∧ edge g u x).
Proof.
  apply preorder_mutual.
  - intros seen v out _ IH [|k] x Hk; simplify_eq/=; [by left|]. right.
    destruct (IH k x Hk) as [Hx|(j & u & Hj & Hu & He)].
    + exists 0, v. split_and!; [lia|done..].
    + exists (S j), u. split_and!; [lia|done..].
  - intros seen k x Hk. by rewrite lookup_nil in Hk.
  - intros seen n ns out _ _ IH k x Hk.
    destruct (IH k x Hk) as [Hx|?]; [left; set_solver|by right].
  - intros seen n ns out1 out2 _ _ IH1 _ IH2 k x Hk.
    apply lookup_app_Some in Hk as [Hk|[Hlen Hk]].
    + destruct (IH1 k x Hk) as [[_ ->]|(j & u & Hj & Hu & He)]; [left; left|].
      right. exists j, u. split_and!; [done| |done].
      by apply lookup_app_l_Some.
    + destruct (IH2 _ x Hk) as [Hx|(j & u & Hj & Hu & He)]; [left; by right|].
      right. exists (length out1 + j), u. split_and!; [lia| |done].
      rewrite lookup_app_r by lia. rewrite <-Hu. f_equal. lia.
Qed.

Lemma bfs_discovered g start r :
  bfs start g = Some (r, g) → discovered g start r.
Proof.
  intros Hrun.
  destruct (bfs_loop_inv g
    (λ visited queue result,
       (∀ x, x ∈ queue → x = start ∨ ∃ u, u ∈ result ∧ edge g u x) ∧
       ∀ k x, result !! k = Some x →
         x = start ∨ ∃ j u, j < k ∧ result !! j = Some u ∧ edge g u x))
    with (fuel := 2 + edge_count g) (visited := @nil ident)
         (queue := [start]) (result := @nil ident)
    as (visited & r' & Hrun' & _ & Hres).
  - intros visited v queue result [Hq Hr] _. split; [|done].
    intros x Hx. apply Hq. by right.
  - intros visited v queue result [Hq Hr] _. split.
    + intros x [Hx|[_ Hx]%list_elem_of_filter]%elem_of_app.
      * destruct (Hq x) as [?|(u & Hu & He)]; [by right|by left|].
        right. exists u. split; [|done]. apply elem_of_app. by left.
      * right. exists v. split; [|done]. apply elem_of_app. right. by left.
    + intros k x [Hk|[Hlen Hk]]%lookup_app_Some.
      * destruct (Hr k x Hk) as [?|(j & u & Hj & Hu & He)]; [by left|].
        right. exists j, u. split_and!; [done| |done].
        by apply lookup_app_l_Some.
      * apply list_lookup_singleton_Some in Hk as [Hk ->].
        destruct (Hq x) as [?|(u & Hu & He)]; [by left|by left|].
        right. apply list_elem_of_lookup_1 in Hu as [j Hj].
        exists j, u. split_and!; [|by apply lookup_app_l_Some|done].
        apply lookup_lt_Some in Hj. lia.
  - split.
    + intros x ->%list_elem_of_singleton. by left.
    + intros k x Hk. by rewrite lookup_nil in Hk.
  - pose proof (unexplored_edge_count g []). simpl. lia.
  - unfold bfs, bfs_within in Hrun. rewrite Hrun' in Hrun. simplify_eq.
    destruct (bfs_result g start) as (r0 & Hrun0 & Hnd & _ & Hocc).
    unfold bfs, bfs_within in Hrun0. rewrite Hrun' in Hrun0. simplify_eq.
    assert ([start] `prefix_of` r0) as [rest ->].
    { rewrite <-Hocc. apply (occurrences_from_prefix [start]). }
    intros [|k] x Hk; simplify_eq/=; [by left|]. right.
    destruct (Hres (S k) x Hk) as [->|?]; [|done].
    apply NoDup_cons in Hnd as [Hstart _]. destruct Hstart.
    by eapply list_elem_of_lookup_2.
Qed.

(** X19. Both traversals discover along edges: every vertex of the
    result of [bfs(start)] or [dfs(start)], but [start] at its head, is a
    neighbour of a vertex that comes before it in the result. *)
Theorem traversals_discover_along_edges g start :
  ∃ rb rd,
    bfs start g = Some (rb, g) ∧ dfs start g = Some (rd, g) ∧
    (∀ k x, rb !! S k = Some x →
       ∃ j u, j ≤ k ∧ rb !! j = Some u ∧ x ∈ neighbors_of u g) ∧
    (∀ k x, rd !! S k = Some x →
       ∃ j u, j ≤ k ∧ rd !! j = Some u ∧ x ∈ neighbors_of u g).
Proof.
  destruct (bfs_result g start) as (rb & Hb & _).
  destruct (dfs_result g start) as (rd & Hd & _ & _ & Hpre).
  exists rb, rd. split_and!; [done..| |].
  - intros k x Hk.
    destruct (bfs_discovered g start rb Hb (S k) x Hk)
      as [[? _]|(j & u & Hj & Hu & He)]; [done|].
    exists j, u. split_and!; [lia|done..].
  - intros k x Hk.
    destruct (proj1 (preorder_discovered g) _ _ _ Hpre (S k) x Hk)
      as [[? _]|(j & u & Hj & Hu & He)]; [done|].
    exists j, u. split_and!; [lia|done..].
Qed.

Lemma reachable_only_start g start :
  (∀ w, edge g start w → w = start) →
  ∀ v, reachable g start v → v = start.
Proof.
  intros Hloop. apply rtc_ind_r; [done|].
  intros u w _ He ->. by apply Hloop.
Qed.

Lemma singleton_result g start r :
  NoDup r → (∀ v, v ∈ r ↔ reachable g start v) →
  r = [start] ↔ ∀ w, edge g start w → w = start.
Proof.
  intros Hnd Hm. split.
  - intros -> w He. apply list_elem_of_singleton, Hm. by apply rtc_once.
  - intros Hloop.
    assert (∀ v, v ∈ r → v = start) as Hall.
    { intros v Hv%Hm. by eapply reachable_only_start. }
    assert (start ∈ r) as Hstart by (apply Hm; constructor).
    destruct r as [|x [|y r]]; [by apply elem_of_nil in Hstart| |].
    + f_equal. apply Hall. by left.
    + apply NoDup_cons in Hnd as [Hx _]. destruct Hx.
      rewrite (Hall x), <-(Hall y); [by left|right; by left|by left].
Qed.

(** X20. A traversal returns its start alone exactly when the start has no
    neighbour but itself, be it a vertex with an empty array, with
    self-loops only, or no vertex of the graph at all. *)
Theorem traversal_returns_start_alone g start :
  (bfs start g = Some ([start], g) ↔ ∀ w, w ∈ neighbors_of start g → w = start) ∧
  (dfs start g = Some ([start], g) ↔ ∀ w, w ∈ neighbors_of start g → w = start).
Proof.
  destruct (bfs_result g start) as (rb & Hb & Hndb & Hmb & _).
  destruct (dfs_result g start) as (rd & Hd & Hndd & Hmd & _).
  rewrite Hb, Hd. split.
  - rewrite <-(singleton_result g start rb) by done. naive_solver.
  - rewrite <-(singleton_result g start rd) by done. naive_solver.
Qed.

(** X21. Being visited is transitive: from a vertex that [bfs(start)]
    returns, [bfs] and [dfs] return only vertices that [bfs(start)]
    returns. *)
Theorem traversal_from_visited g start :
  ∃ r,
    bfs start g = Some (r, g) ∧
    ∀ w, w ∈ r →
      ∃ rb rd,
        bfs w g = Some (rb, g) ∧ dfs w g = Some (rd, g) ∧ rb ⊆ r ∧ rd ⊆ r.
Proof.
  destruct (bfs_result g start) as (r & Hr & _ & Hm & _).
  exists r. split; [done|]. intros w Hw%Hm.
  destruct (bfs_result g w) as (rb & Hb & _ & Hmb & _).
  destruct (dfs_result g w) as (rd & Hd & _ & Hmd & _).
  exists rb, rd. split_and!; [done..| |].
  - intros v Hv%Hmb. apply Hm. by eapply rtc_trans.
  - intros v Hv%Hmd. apply Hm. by eapply rtc_trans.
Qed.

(** X23. In a graph built with undirected edges only, the traversals
    find components: from every vertex that [bfs(start)] returns, [bfs] and
    [dfs] return the same vertices as [bfs(start)], in some order. *)
Theorem undirected_components g start :
  built_undirected g →
  ∃ r,
    bfs start g = Some (r, g) ∧
    ∀ w, w ∈ r →
      ∃ rb rd,
        bfs w g = Some (rb, g) ∧ dfs w g = Some (rd, g) ∧
        (rb ≡ₚ r) ∧ (rd ≡ₚ r).
Proof.
  intros Hb.
  destruct (bfs_result g start) as (r & Hr & Hnd & Hm & _).
  exists r. split; [done|]. intros w Hw%Hm.
  destruct (bfs_result g w) as (rb & Hrb & Hndb & Hmb & _).
  destruct (dfs_result g w) as (rd & Hrd & Hndd & Hmd & _).
  assert (∀ v, reachable g w v ↔ reachable g start v) as Hsame.
  { intros v. split; intros Hv.
    - by eapply rtc_trans.
    - eapply rtc_trans; [|done]. by apply undirected_reachable_sym. }
  exists rb, rd. split_and!; [done..| |].
  - apply NoDup_Permutation; [done..|]. intros v. by rewrite Hmb, Hm.
  - apply NoDup_Permutation; [done..|]. intros v. by rewrite Hmd, Hm.
Qed.

End Discovery.

(** * Line numbers *)

Lemma occurs_app (c : Ascii.ascii) (s1 s2 : string) :
  occurs c (s1 +:+ s2) = occurs c s1 + occurs c s2.
Proof.
  induction s1 as [|c' s1 IH]; [done|].
  change (String c' s1 +:+ s2) with (String c' (s1 +:+ s2)).
  simpl. rewrite IH. lia.
Qed.

Lemma split_cons (sep : Ascii.ascii) (s : string) :
  ∃ piece pieces, split sep s = piece :: pieces.
Proof.
  destruct s as [|c s]; simpl; [by eexists _, _|].
  case_decide; [by eexists _, _|]. destruct (split sep s); by eexists _, _.
Qed.

(** The pieces are one more than the separators, and hold none. *)
Lemma length_split (sep : Ascii.ascii) (s : string) :
  length (split sep s) = S (occurs sep s).
Proof.
  induction s as [|c s IH]; simpl; [done|].
  case_decide; simpl; [by rewrite IH|].
  destruct (split sep s); simpl in *; lia.
Qed.

Lemma split_pieces (sep : Ascii.ascii) (s piece : string) :
  piece ∈ split sep s → occurs sep piece = 0.
Proof.
  revert piece. induction s as [|c s IH]; intros piece; simpl.
  - by intros ->%list_elem_of_singleton.
  - case_decide.
    + intros [->|?]%elem_of_cons; [done|by apply IH].
    + destruct (split sep s) as [|p ps].
      * intros ->%list_elem_of_singleton. simpl. by rewrite decide_False.
      * intros [->|?]%elem_of_cons.
        -- simpl. rewrite decide_False by done. apply IH. by left.
        -- apply IH. by right.
Qed.

Lemma split_none (sep : Ascii.ascii) (s : string) :
  occurs sep s = 0 → split sep s = [s].
Proof.
  induction s as [|c s IH]; simpl; [done|].
  case_decide; [done|]. intros Hs. by rewrite IH.
Qed.

Lemma split_app (sep : Ascii.ascii) (s1 s2 : string) :
  occurs sep s1 = 0 →
  split sep (s1 +:+ String sep s2) = s1 :: split sep s2.
Proof.
  induction s1 as [|c s1 IH]; simpl.
  - intros _. change (EmptyString +:+ String sep s2) with (String sep s2).
    simpl. by rewrite decide_True.
  - change (String c s1 +:+ String sep s2)
      with (String c (s1 +:+ String sep s2)).
    simpl. case_decide; [done|]. intros Hs. by rewrite IH.
Qed.

(** [split] undoes [join] when no piece holds the separator. *)
Lemma split_concat (sep : Ascii.ascii) (piece : string) (pieces : list string) :
  Forall (λ p, occurs sep p = 0) (piece :: pieces) →
  split sep (String.concat (String sep EmptyString) (piece :: pieces)) =
    piece :: pieces.
Proof.
  revert piece. induction pieces as [|p ps IH]; intros piece Hall.
  - simpl. apply split_none. by apply Forall_inv in Hall.
  - apply Forall_cons in Hall as [Hpiece Hall].
    change (String.concat (String sep EmptyString) (piece :: p :: ps))
      with (piece +:+ String sep EmptyString +:+
              String.concat (String sep EmptyString) (p :: ps)).
    change (String sep EmptyString +:+ ?s) with (String sep s).
    by rewrite split_app, IH.
Qed.

Lemma pretty_N_char_occurs (c : Ascii.ascii) (d : N) :
  occurs c "0123456789" = 0 → pretty_N_char d ≠ c.
Proof.
  intros Hc Hd. subst c. revert Hc. unfold pretty_N_char.
  repeat case_match; by vm_compute.
Qed.

(** A decimal has only digits. *)
Lemma pretty_N_go_occurs (c : Ascii.ascii) (x : N) (s : string) :
  occurs c "0123456789" = 0 → occurs c s = 0 →
  occurs c (pretty_N_go x s) = 0.
Proof.
  intros Hc. revert s. induction (N.lt_wf_0 x) as [x _ IH]. intros s Hs.
  destruct (decide (x = 0)%N) as [->|Hx]; [done|].
  rewrite pretty_N_go_step by lia. apply IH.
  - apply N.div_lt; lia.
  - simpl. rewrite decide_False; [done|]. by apply pretty_N_char_occurs.
Qed.

Lemma pretty_nat_occurs (c : Ascii.ascii) (n : nat) :
  occurs c "0123456789" = 0 → occurs c (pretty n) = 0.
Proof.
  intros Hc. unfold pretty, pretty_nat, pretty, pretty_N.
  case_decide; [|by apply pretty_N_go_occurs].
  revert Hc. simpl. repeat case_decide; done.
Qed.

Lemma numbered_line_occurs (index : nat) (line : string) :
  occurs line_feed line = 0 → occurs line_feed (numbered_line index line) = 0.
Proof.
  intros Hline. unfold numbered_line. rewrite !occurs_app, Hline.
  by rewrite pretty_nat_occurs.
Qed.

Lemma numberedLines_split (text : string) :
  split line_feed (numberedLines text) =
    imap numbered_line (split line_feed text).
Proof.
  unfold numberedLines.
  destruct (imap numbered_line (split line_feed text)) as [|piece pieces] eqn:Hl.
  { apply (f_equal length) in Hl. by rewrite length_imap, length_split in Hl. }
  apply (split_concat line_feed). rewrite <-Hl. apply Forall_forall.
  intros p (i & line & -> & Hi)%elem_of_lookup_imap.
  apply numbered_line_occurs, (split_pieces _ text).
  by eapply list_elem_of_lookup_2.
Qed.

(** X22. [addLineNumbers] numbers the lines in place.  The string it gives
    a block, read line by line, has the lines of the text of the block, as
    many as there were, one more than the text has line feeds, each after
    a [span] with its number, from 1 on; so an empty block gets a line 1
    and a final line feed a numbered empty line. *)
Theorem addLineNumbers_numbers_each_line (codeBlocks : list string) :
  Forall2 (λ text html,
    split line_feed html = imap numbered_line (split line_feed text) ∧
    length (split line_feed html) = S (occurs line_feed text) ∧
    occurs line_feed html = occurs line_feed text)
    codeBlocks (addLineNumbers codeBlocks).
Proof.
  unfold addLineNumbers. apply Forall2_fmap_r, Forall_Forall2_diag.
  apply Forall_forall. intros text _.
  assert (length (split line_feed (numberedLines text)) =
          S (occurs line_feed text)) as Hlen.
  { by rewrite numberedLines_split, length_imap, length_split. }
  split_and!; [apply numberedLines_split|done|].
  rewrite length_split in Hlen. lia.
Qed.

(** * The properties at work *)

Ltac by_evaluation :=
  unfold edge; apply (bool_decide_unpack _); by vm_compute.

Example path_graph_is_undirected : built_undirected Demo.path_graph_map.
Proof.
  pose proof path_graph_built as Hrun. unfold Demo.path_graph in Hrun.
  destruct (addEdge "a" "b" false new_Graph) as [g1|] eqn:H1; [|done].
  simpl in Hrun.
  destruct (addEdge "b" "c" false g1) as [g2|] eqn:H2; [|done]. simpl in Hrun.
  destruct (addEdge "c" "d" false g2) as [g3|] eqn:H3; [|done]. simpl in Hrun.
  injection Hrun as <-. apply undirected_addVertex.
  eapply undirected_addEdge; [|exact H3].
  eapply undirected_addEdge; [|exact H2].
  eapply undirected_addEdge; [|exact H1].
  constructor.
Qed.

Example diamond_once_same_first :
  same_first_neighbors Demo.diamond Demo.diamond_once.
Proof.
  intros u. unfold neighbors_of. simpl. repeat case_decide; by vm_compute.
Qed.

Example diamond_heap_separate : heap_separate Demo.diamond_heap.
Proof.
  split; [unfold heap_wf; simpl; repeat constructor|by_evaluation].
Qed.

(** An empty block gets a line 1. *)
Example empty_block_numbered :
  addLineNumbers [EmptyString] =
    ["<span class=" +:+ double_quote +:+ "line-number" +:+ double_quote
       +:+ ">1</span>"].
Proof. vm_compute. reflexivity. Qed.

(** Two lines and a final line feed: three numbered lines. *)
Example block_numbered :
  split line_feed (numberedLines ("a" +:+ newline +:+ "b" +:+ newline)) =
    [numbered_line 0 "a"; numbered_line 1 "b"; numbered_line 2 EmptyString].
Proof. vm_compute. reflexivity. Qed.

(** The vertex [e] of the path graph is in no array. *)
Lemma isolated_vertex_not_visited_witness :
  ("e" ∉ all_neighbors Demo.path_graph_map) ∧ "e" ≠ "a" ∧
  ∃ rb rd,
    bfs "a" Demo.path_graph_map = Some (rb, Demo.path_graph_map) ∧
    dfs "a" Demo.path_graph_map = Some (rd, Demo.path_graph_map) ∧
    ("e" ∉ rb) ∧ ("e" ∉ rd).
Proof.
  assert ("e" ∉ all_neighbors Demo.path_graph_map) as H1 by by_evaluation.
  assert ("e" ≠ "a") as H2 by done.
  split; [exact H1|]. split; [exact H2|].
  exact (isolated_vertex_not_visited Demo.path_graph_map "a" "e" H1 H2).
Defined.

Lemma built_neighbors_have_entries_witness :
  built Demo.path_graph_map ∧ "c" ∈ neighbors_of "b" Demo.path_graph_map ∧
  is_Some (map_get "c" (adjacencyList Demo.path_graph_map)).
Proof.
  assert ("c" ∈ neighbors_of "b" Demo.path_graph_map) as H1 by by_evaluation.
  split; [exact path_graph_is_built|]. split; [exact H1|].
  exact (built_neighbors_have_entries _ "b" "c" path_graph_is_built H1).
Defined.

Lemma traversal_within_vertices_witness :
  built Demo.path_graph_map ∧
  is_Some (map_get "b" (adjacencyList Demo.path_graph_map)) ∧
  ∃ rb rd,
    bfs "b" Demo.path_graph_map = Some (rb, Demo.path_graph_map) ∧
    dfs "b" Demo.path_graph_map = Some (rd, Demo.path_graph_map) ∧
    (∀ v, v ∈ rb ∨ v ∈ rd → v ∈ map_keys (adjacencyList Demo.path_graph_map)) ∧
    length rb ≤ length (map_keys (adjacencyList Demo.path_graph_map)) ∧
    length rd ≤ length (map_keys (adjacencyList Demo.path_graph_map)).
Proof.
  assert (is_Some (map_get "b" (adjacencyList Demo.path_graph_map))) as H1
    by (vm_compute; by eexists).
  split; [exact path_graph_is_built|]. split; [exact H1|].
  exact (traversal_within_vertices _ "b" path_graph_is_built H1).
Defined.

Lemma undirected_traversals_mutual_witness :
  built_undirected Demo.path_graph_map ∧
  ("d" ∈ neighbors_of "a" Demo.path_graph_map ↔
   "a" ∈ neighbors_of "d" Demo.path_graph_map) ∧
  ∃ rbu rbw rdu rdw,
    bfs "a" Demo.path_graph_map = Some (rbu, Demo.path_graph_map) ∧
    bfs "d" Demo.path_graph_map = Some (rbw, Demo.path_graph_map) ∧
    dfs "a" Demo.path_graph_map = Some (rdu, Demo.path_graph_map) ∧
    dfs "d" Demo.path_graph_map = Some (rdw, Demo.path_graph_map) ∧
    ("d" ∈ rbu ↔ "a" ∈ rbw) ∧ ("d" ∈ rdu ↔ "a" ∈ rdw).
Proof.
  split; [exact path_graph_is_undirected|].
  exact (undirected_traversals_mutual _ "a" "d" path_graph_is_undirected).
Defined.

(** From [c] the path graph is visited outwards, [b] before [d]. *)
Lemma bfs_order_determined_witness :
  first_occurrences (arrivals Demo.path_graph_map "c" ["c"; "b"; "d"; "a"]) =
    ["c"; "b"; "d"; "a"] ∧
  (∀ v, v ∈ ["c"; "b"; "d"; "a"] → reachable Demo.path_graph_map "c" v) ∧
  bfs "c" Demo.path_graph_map =
    Some (["c"; "b"; "d"; "a"], Demo.path_graph_map).
Proof.
  assert (first_occurrences
            (arrivals Demo.path_graph_map "c" ["c"; "b"; "d"; "a"]) =
          ["c"; "b"; "d"; "a"]) as H1 by (by vm_compute).
  assert (∀ v, v ∈ ["c"; "b"; "d"; "a"] →
               reachable Demo.path_graph_map "c" v) as H2.
  { assert (edge Demo.path_graph_map "c" "b") by by_evaluation.
    assert (edge Demo.path_graph_map "c" "d") by by_evaluation.
    assert (edge Demo.path_graph_map "b" "a") by by_evaluation.
    intros v Hv. repeat (apply elem_of_cons in Hv as [->|Hv]).
    - constructor.
    - by apply rtc_once.
    - by apply rtc_once.
    - apply (rtc_l _ _ "b"); [done|]. by apply rtc_once.
    - by apply elem_of_nil in Hv. }
  split; [exact H1|]. split; [exact H2|].
  exact (proj2 (bfs_order_determined Demo.path_graph_map "c" _) (conj H1 H2)).
Defined.

(** The diamond holds the edge from [s] to [x] twice. *)
Lemma traversals_ignore_repetitions_witness :
  same_first_neighbors Demo.diamond Demo.diamond_once ∧
  ∃ rb rd,
    bfs "s" Demo.diamond = Some (rb, Demo.diamond) ∧
    bfs "s" Demo.diamond_once = Some (rb, Demo.diamond_once) ∧
    dfs "s" Demo.diamond = Some (rd, Demo.diamond) ∧
    dfs "s" Demo.diamond_once = Some (rd, Demo.diamond_once).
Proof.
  split; [exact diamond_once_same_first|].
  exact (traversals_ignore_repetitions _ _ "s" diamond_once_same_first).
Defined.

Lemma addEdge_again_keeps_traversals_witness :
  edge Demo.path_graph_map "a" "b" ∧
  (false = false → edge Demo.path_graph_map "b" "a") ∧
  ∃ g' rb rd,
    addEdge "a" "b" false Demo.path_graph_map = Some g' ∧
    bfs "d" Demo.path_graph_map = Some (rb, Demo.path_graph_map) ∧
    bfs "d" g' = Some (rb, g') ∧
    dfs "d" Demo.path_graph_map = Some (rd, Demo.path_graph_map) ∧
    dfs "d" g' = Some (rd, g').
Proof.
  assert (edge Demo.path_graph_map "a" "b") as H1 by by_evaluation.
  assert (false = false → edge Demo.path_graph_map "b" "a") as H2
    by (intros _; by_evaluation).
  split; [exact H1|]. split; [exact H2|].
  exact (addEdge_again_keeps_traversals "a" "b" false _ "d" H1 H2).
Defined.

Lemma undirected_matrix_symmetric_witness :
  built_undirected Demo.path_graph_map ∧
  ∃ matrix vertices,
    getAdjacencyMatrix id Demo.path_graph_map =
      Some ((matrix, vertices), Demo.path_graph_map) ∧
    ∀ i j, cell matrix i j = cell matrix j i.
Proof.
  split; [exact path_graph_is_undirected|].
  exact (undirected_matrix_symmetric id _ path_graph_is_undirected).
Defined.

Lemma matrix_shows_every_edge_witness :
  built Demo.path_graph_map ∧ edge Demo.path_graph_map "c" "d" ∧
  ∃ matrix vertices i j,
    getAdjacencyMatrix id Demo.path_graph_map =
      Some ((matrix, vertices), Demo.path_graph_map) ∧
    vertices !! i = Some "c" ∧ vertices !! j = Some "d" ∧
    cell matrix i j = Some 1.
Proof.
  assert (edge Demo.path_graph_map "c" "d") as H1 by by_evaluation.
  split; [exact path_graph_is_built|]. split; [exact H1|].
  exact (matrix_shows_every_edge id _ "c" "d" path_graph_is_built H1).
Defined.

Lemma matrix_row_counts_neighbors_witness :
  built Demo.path_graph_map ∧
  ∃ matrix vertices,
    getAdjacencyMatrix id Demo.path_graph_map =
      Some ((matrix, vertices), Demo.path_graph_map) ∧
    NoDup vertices ∧
    ∀ i vi row, vertices !! i = Some vi → matrix !! i = Some row →
      sum_list row =
        length (first_occurrences (neighbors_of vi Demo.path_graph_map)).
Proof.
  split; [exact path_graph_is_built|].
  exact (matrix_row_counts_neighbors id _ path_graph_is_built).
Defined.

(** The store of the diamond takes a vertex and an edge. *)
Lemma insertion_by_reference_witness :
  heap_separate Demo.diamond_heap ∧
  (graph_of (addVertex_ref "t" Demo.diamond_heap) =
     addVertex "t" (graph_of Demo.diamond_heap) ∧
   heap_separate (addVertex_ref "t" Demo.diamond_heap)) ∧
  ∃ h', addEdge_ref "q" "s" false Demo.diamond_heap = Some h' ∧
        addEdge "q" "s" false (graph_of Demo.diamond_heap) =
          Some (graph_of h') ∧
        heap_separate h'.
Proof.
  split; [exact diamond_heap_separate|].
  exact (insertion_by_reference "t" "q" "s" false _ diamond_heap_separate).
Defined.

Lemma undirected_components_witness :
  built_undirected Demo.path_graph_map ∧
  ∃ r,
    bfs "b" Demo.path_graph_map = Some (r, Demo.path_graph_map) ∧
    ∀ w, w ∈ r →
      ∃ rb rd,
        bfs w Demo.path_graph_map = Some (rb, Demo.path_graph_map) ∧
        dfs w Demo.path_graph_map = Some (rd, Demo.path_graph_map) ∧
        (rb ≡ₚ r) ∧ (rd ≡ₚ r).
Proof.
  split; [exact path_graph_is_undirected|].
  exact (undirected_components _ "b" path_graph_is_undirected).
Defined.

